(** * crosspost: the Bluesky strategy, its facet pipeline and the broadcaster

    A shallow embedding of [src/strategies/bluesky.js] and of the parts of
    the repository it relies on.

    JavaScript strings are sequences of UTF-16 code units, so a string is a
    [list N]; [length] is the [length] property, [take]/[drop] are
    [substring], and the string iterator ([[...s]]) is [codePoints].
    Asynchronous functions are computations over a [World] that records
    every [fetch] call; a rejected promise is a [Throw]. *)

From Stdlib Require Import String Ascii NArith Lia DecimalString.
From stdpp Require Import base tactics option list numbers sorting.

Local Open Scope nat_scope.

(** ** JavaScript strings *)

Abbreviation jsstring := (list N).

(** A string literal of the source (ASCII only). *)
Definition js (s : string) : jsstring :=
  List.map N_of_ascii (list_ascii_of_string s).

Definition isHighSurrogate (c : N) : bool := ((55296 <=? c) && (c <=? 56319))%N.
Definition isLowSurrogate (c : N) : bool := ((56320 <=? c) && (c <=? 57343))%N.

(** [[...s]]: the string iterator yields one element per code point; a high
    surrogate followed by a low surrogate is one element, any other code
    unit (a lone surrogate too) is an element of its own. *)
Fixpoint codePoints (s : jsstring) : list jsstring :=
  match s with
  | [] => []
  | c :: rest =>
      match rest with
      | d :: rest' =>
          if isHighSurrogate c && isLowSurrogate d
          then [c; d] :: codePoints rest'
          else [c] :: codePoints rest
      | [] => [[c]]
      end
  end.

(** [[...s].length] *)
Definition cpLength (s : jsstring) : nat := length (codePoints s).

(** The class [\s] of ECMAScript regular expressions. *)
Definition isWhiteSpace (c : N) : bool :=
  ((9 <=? c) && (c <=? 13) || (c =? 32) || (c =? 160) || (c =? 5760)
   || (8192 <=? c) && (c <=? 8202) || (c =? 8232) || (c =? 8233)
   || (c =? 8239) || (c =? 8287) || (c =? 12288) || (c =? 65279))%N.

(** [stripPrefix p s] is the rest of [s] after the literal [p], when [s]
    starts with [p]. *)
Fixpoint stripPrefix (p s : jsstring) : option jsstring :=
  match p with
  | [] => Some s
  | a :: p' =>
      match s with
      | b :: s' => if (a =? b)%N then stripPrefix p' s' else None
      | [] => None
      end
  end.

(** Length of the longest prefix whose code units all satisfy [f]: what a
    greedy [[class]*] consumes. *)
Fixpoint runLength (f : N -> bool) (s : jsstring) : nat :=
  match s with
  | c :: rest => if f c then S (runLength f rest) else 0
  | [] => 0
  end.

(** ** The regular expression [/https?:\/\/[^\s]+/]

    [matchUrlAt s] is the length of the match anchored at the start of [s],
    if there is one.  [urlTail] is the part [:\/\/[^\s]+]; the optional [s]
    is tried first and given back when the tail then fails. *)
Definition urlTail (r : jsstring) : option nat :=
  match stripPrefix (js "://") r with
  | Some t =>
      match runLength (fun c => negb (isWhiteSpace c)) t with
      | 0 => None
      | S n => Some (3 + S n)
      end
  | None => None
  end.

Definition matchUrlAt (s : jsstring) : option nat :=
  match stripPrefix (js "http") s with
  | None => None
  | Some r =>
      let without_s := option_map (fun n => 4 + n) (urlTail r) in
      match r with
      | c :: r' =>
          if (c =? 115)%N
          then match urlTail r' with
               | Some n => Some (5 + n)
               | None => without_s
               end
          else without_s
      | [] => without_s
      end
  end.

(** ** [String.prototype.replace] with a global regular expression

    The scan tries the pattern at every position that is not inside an
    earlier match; a match is replaced by the callback's result and the
    scan resumes after it.  [skip] counts the code units of the current
    match that are still to be passed. *)
Section Replace.
Variable matchAt : jsstring -> option nat.
Variable callback : jsstring -> jsstring.

Fixpoint replaceFrom (skip : nat) (s : jsstring) : jsstring :=
  match s with
  | [] => []
  | c :: rest =>
      match skip with
      | S k => replaceFrom k rest
      | 0 =>
          match matchAt s with
          | Some (S k) => callback (take (S k) s) ++ replaceFrom k rest
          | Some 0 => callback [] ++ c :: replaceFrom 0 rest
          | None => c :: replaceFrom 0 rest
          end
      end
  end.

Definition replace (s : jsstring) : jsstring := replaceFrom 0 s.
End Replace.

(** ** [BlueskyStrategy.calculateMessageLength] *)

Definition URL_DISPLAY_LENGTH : nat := 27.

Definition urlPlaceholder (url : jsstring) : jsstring :=
  if URL_DISPLAY_LENGTH <? length url
  then repeat 120%N URL_DISPLAY_LENGTH
  else url.

Definition calculateMessageLength (message : jsstring) : nat :=
  let urlAdjusted := replace matchUrlAt urlPlaceholder message in
  cpLength urlAdjusted.

(** The tokens of a message under the same scan: the URL tokens are the
    matches of the regular expression, the text tokens the maximal runs
    between them. *)
Inductive Token :=
  | Text (t : jsstring)
  | Url (u : jsstring).

Definition tokenText (t : Token) : jsstring :=
  match t with Text s => s | Url s => s end.

Definition consText (c : N) (ts : list Token) : list Token :=
  match ts with
  | Text t :: ts' => Text (c :: t) :: ts'
  | _ => Text [c] :: ts
  end.

Fixpoint tokensFrom (skip : nat) (s : jsstring) : list Token :=
  match s with
  | [] => []
  | c :: rest =>
      match skip with
      | S k => tokensFrom k rest
      | 0 =>
          match matchUrlAt s with
          | Some (S k) => Url (take (S k) s) :: tokensFrom k rest
          | _ => consText c (tokensFrom 0 rest)
          end
      end
  end.

Definition tokens (message : jsstring) : list Token := tokensFrom 0 message.

(** What a token adds to the calculated length. *)
Definition contribution (t : Token) : nat :=
  match t with
  | Text s => cpLength s
  | Url u => if URL_DISPLAY_LENGTH <? length u then URL_DISPLAY_LENGTH else cpLength u
  end.

(** ** UTF-8 *)

(** Bytes of the UTF-8 encoding of a code unit that is a code point of its
    own; the encoder writes U+FFFD, three bytes, for a lone surrogate. *)
Definition utf8Width (c : N) : nat :=
  if (c <? 128)%N then 1 else if (c <? 2048)%N then 2 else 3.

Definition utf8Bytes (cp : jsstring) : nat :=
  match cp with
  | [c] => utf8Width c
  | _ => 4
  end.

(** [new TextEncoder().encode(s).length] *)
Definition utf8Length (s : jsstring) : nat :=
  sum_list_with utf8Bytes (codePoints s).

(** ** Facets

    The shape [resolveMentionFacets] documents and the tests show:
    [{ index: { byteStart, byteEnd }, features: [{ $type, did?, uri?, tag? }] }]. *)
Record ByteSlice := { byteStart : nat; byteEnd : nat }.

Record Feature := {
  type_ : jsstring;             (* $type *)
  did : option jsstring;
  uri : option jsstring;
  tag : option jsstring
}.

Record Facet := { index : ByteSlice; features : list Feature }.

Definition LINK_FACET : jsstring := js "app.bsky.richtext.facet#link".
Definition MENTION_FACET : jsstring := js "app.bsky.richtext.facet#mention".
Definition TAG_FACET : jsstring := js "app.bsky.richtext.facet#tag".

(** [===] on strings *)
Fixpoint jsEq (a b : jsstring) : bool :=
  match a, b with
  | [], [] => true
  | x :: a', y :: b' => (x =? y)%N && jsEq a' b'
  | _, _ => false
  end.

(** ** The facet detector

    [detectFacets] of [src/util/bluesky-facets.js], which [postMessage]
    imports, is not among the sources; this section follows the spec (4.2,
    4.3) and agrees with the requests the tests expect. *)

(** Modelled from the spec: the URL-truncation transform of
    [src/util/bluesky-facets.js] (4.3): a URL whose length exceeds the
    threshold is rendered as its first [threshold - 3] characters and a
    three-character ellipsis marker; a URL at the threshold is kept. *)
Definition truncateUrl (url : jsstring) : jsstring :=
  if URL_DISPLAY_LENGTH <? length url
  then take (URL_DISPLAY_LENGTH - 3) url ++ js "..."
  else url.

Inductive FacetKind := Link | Mention | Hashtag.

(** Modelled from the spec: a candidate of the detector, that is a span of
    the rewritten text in code units, its kind (link, mention, hashtag) and
    its target, the original URL or handle (3, 4.2). *)
Record Span := {
  spanStart : nat;
  spanLength : nat;
  spanKind : FacetKind;
  spanTarget : jsstring
}.

Definition spanEnd (sp : Span) : nat := spanStart sp + spanLength sp.

(** Modelled from the spec: the URL pass of the detector (4.2: a bare URL
    is an [http]/[https] scheme followed by a non-whitespace token, the
    pattern of [calculateMessageLength]).  It is the same scan as
    [replace matchUrlAt truncateUrl], which yields the rewritten text;
    [pos] is the position reached in the rewritten text. *)
Fixpoint linkSpansFrom (skip pos : nat) (s : jsstring) : list Span :=
  match s with
  | [] => []
  | c :: rest =>
      match skip with
      | S k => linkSpansFrom k pos rest
      | 0 =>
          match matchUrlAt s with
          | Some (S k) =>
              let url := take (S k) s in
              let shown := length (truncateUrl url) in
              {| spanStart := pos; spanLength := shown;
                 spanKind := Link; spanTarget := url |}
              :: linkSpansFrom k (pos + shown) rest
          | _ => linkSpansFrom 0 (S pos) rest
          end
      end
  end.

Definition linkSpans (text : jsstring) : list Span := linkSpansFrom 0 0 text.

Definition isAlnum (c : N) : bool :=
  ((48 <=? c) && (c <=? 57) || (65 <=? c) && (c <=? 90)
   || (97 <=? c) && (c <=? 122))%N.

(** Modelled from the spec: the handle grammar (4.2: [@] and a handle
    that allows domain-like suffixes, [@alice], [@bob.example.com]).  A
    handle is one or more labels of letters, digits and hyphens, separated
    by dots. *)
Definition isLabelChar (c : N) : bool := isAlnum c || (c =? 45)%N.

(** Length of the longest handle at the start of [s]; 0 when there is none. *)
Fixpoint handleLength (s : jsstring) : nat :=
  match s with
  | c :: rest =>
      if isLabelChar c
      then S match rest with
             | d :: rest' =>
                 if isLabelChar d then handleLength rest
                 else if (d =? 46)%N
                      then match handleLength rest' with
                           | 0 => 0
                           | S m => S (S m)
                           end
                      else 0
             | [] => 0
             end
      else 0
  | [] => 0
  end.

Definition matchMentionAt (s : jsstring) : option nat :=
  match s with
  | c :: rest =>
      if (c =? 64)%N
      then match handleLength rest with
           | 0 => None
           | S n => Some (S (S n))
           end
      else None
  | [] => None
  end.

(** Modelled from the spec: hashtags (4.2), [#] and one or more letters,
    digits or underscores. *)
Definition isTagChar (c : N) : bool := isAlnum c || (c =? 95)%N.

Definition matchTagAt (s : jsstring) : option nat :=
  match s with
  | c :: rest =>
      if (c =? 35)%N
      then match runLength isTagChar rest with
           | 0 => None
           | S n => Some (S (S n))
           end
      else None
  | [] => None
  end.

(** Modelled from the spec: all matches of a mention or hashtag pattern
    (4.2), left to right, each the longest at its position, as spans whose
    target is the matched text without its first code unit (the [@] or
    [#]). *)
Fixpoint matchAllFrom (matchAt : jsstring -> option nat) (kind : FacetKind)
    (skip pos : nat) (s : jsstring) : list Span :=
  match s with
  | [] => []
  | c :: rest =>
      match skip with
      | S k => matchAllFrom matchAt kind k (S pos) rest
      | 0 =>
          match matchAt s with
          | Some (S k) =>
              {| spanStart := pos; spanLength := S k;
                 spanKind := kind; spanTarget := take k rest |}
              :: matchAllFrom matchAt kind k (S pos) rest
          | _ => matchAllFrom matchAt kind 0 (S pos) rest
          end
      end
  end.

Definition mentionSpans (text : jsstring) : list Span :=
  matchAllFrom matchMentionAt Mention 0 0 text.

Definition tagSpans (text : jsstring) : list Span :=
  matchAllFrom matchTagAt Hashtag 0 0 text.

Definition overlaps (a b : Span) : bool :=
  (spanStart a <? spanEnd b) && (spanStart b <? spanEnd a).

(** Modelled from the spec: the overlap policy (4.2: once a span is
    claimed, overlapping candidates are discarded).  A candidate is claimed
    unless it overlaps a span claimed before it. *)
Definition claim (claimed candidates : list Span) : list Span :=
  foldl (fun acc c => if existsb (overlaps c) acc then acc else acc ++ [c])
        claimed candidates.

Definition startsBefore (a b : Span) : Prop := spanStart a <= spanStart b.

#[global] Instance startsBefore_dec a b : Decision (startsBefore a b).
Proof. unfold startsBefore. apply _. Defined.

Definition featureOf (sp : Span) : Feature :=
  match spanKind sp with
  | Link => {| type_ := LINK_FACET; did := None; uri := Some (spanTarget sp); tag := None |}
  | Mention => {| type_ := MENTION_FACET; did := Some (spanTarget sp); uri := None; tag := None |}
  | Hashtag => {| type_ := TAG_FACET; did := None; uri := None; tag := Some (spanTarget sp) |}
  end.

(** Modelled from the spec: the facet of a span (4.2, 4.3: offsets are
    positions in the UTF-8 byte sequence of the rewritten text). *)
Definition toFacet (text : jsstring) (sp : Span) : Facet :=
  {| index := {| byteStart := utf8Length (take (spanStart sp) text);
                 byteEnd := utf8Length (take (spanEnd sp) text) |};
     features := [featureOf sp] |}.

Record Detected := { facets : list Facet; text : jsstring }.

(** Modelled from the spec: the spans the detector claims.  The URL spans
    are claimed first, every URL being rewritten by the truncation
    transform (so a URL that contains [@] is never also read as a
    mention), then the mentions and hashtags that overlap nothing claimed. *)
Definition claimedSpans (message : jsstring) : list Span :=
  let rewritten := replace matchUrlAt truncateUrl message in
  claim (linkSpans message) (mentionSpans rewritten ++ tagSpans rewritten).

(** Modelled from the spec: [detectFacets] of
    [src/util/bluesky-facets.js] (4.2): it returns the rewritten text and
    the facets of the claimed spans in ascending order of their start. *)
Definition detectFacets (message : jsstring) : Detected :=
  let rewritten := replace matchUrlAt truncateUrl message in
  {| facets := toFacet rewritten <$> merge_sort startsBefore (claimedSpans message);
     text := rewritten |}.

(** ** Errors and results *)

Inductive JsError :=
  | TypeError (message : jsstring)
  | Error (message : jsstring)
  | SyntaxError (message : jsstring)
  | AbortError.     (* the DOMException named "AbortError" of an aborted fetch *)

Inductive Outcome (A : Type) :=
  | Return (a : A)
  | Throw (e : JsError).
Arguments Return {A} a.
Arguments Throw {A} e.

(** ** The platform: [fetch], [image-size], the clock

    An [AbortSignal] is aborted from some point of the run on, or never;
    time is counted in [fetch] calls.  [firesAt = Some k] is a signal that
    fires while the call number [k] (from 0) is in flight, or before it. *)
Record AbortSignal := { firesAt : option nat }.

Definition aborted (signal : option AbortSignal) (t : nat) : bool :=
  match signal with
  | Some {| firesAt := Some k |} => k <=? t
  | _ => false
  end.

Record Blob := { blobLink : jsstring; mimeType : jsstring; size : nat }.

(** The fields the strategy reads from a JSON body. *)
Record Json := {
  j_did : option jsstring;
  j_accessJwt : option jsstring;
  j_blob : option Blob;
  j_uri : option jsstring;
  j_cid : option jsstring;
  j_error : option jsstring;
  j_message : option jsstring
}.

(** [json = None]: [response.json()] rejects. *)
Record Response := {
  ok : bool;
  status : nat;
  statusText : jsstring;
  json : option Json
}.

(** [image.data] as the caller may pass it. *)
Inductive ImageData :=
  | DataMissing
  | DataNotBytes
  | DataBytes (bytes : list N).     (* a Uint8Array *)

Record Image := { data : ImageData; alt : option jsstring }.

Inductive ImagesOption :=
  | ImagesAbsent
  | ImagesNotArray
  | ImagesArray (l : list Image).

Record PostOptions := { images : ImagesOption; signal : option AbortSignal }.

Record EmbedImage := {
  e_alt : jsstring;
  e_image : option Blob;
  e_aspectRatio : nat * nat
}.

Record Embed := { embedType : jsstring; embedImages : list EmbedImage }.

Record PostRecord := {
  recordType : jsstring;
  recordText : jsstring;
  recordFacets : list Facet;
  createdAt : jsstring;
  embed : option Embed
}.

Record BlueskyPostBody := {
  repo : option jsstring;
  collection : jsstring;
  record : PostRecord
}.

Inductive Payload :=
  | NoBody
  | SessionBody (identifier password : option jsstring)
  | BinaryBody (d : ImageData)
  | RecordBody (b : BlueskyPostBody).

(** One call of [fetch]: the URL, its query parameters, and the init. *)
Record Call := {
  url : jsstring;
  query : list (jsstring * jsstring);
  method : jsstring;
  headers : list (jsstring * jsstring);
  body : Payload;
  callSignal : option AbortSignal
}.

Inductive Reply :=
  | Rejects (e : JsError)
  | Responds (r : Response).

Record Platform := {
  server : nat -> Call -> Reply;
  imageSize : ImageData -> Outcome (nat * nat);
  now : nat -> jsstring
}.

(** The world is the history of [fetch] calls. *)
Abbreviation World := (list Call).

Definition M (A : Type) : Type := World -> Outcome A * World.

Definition ret {A} (a : A) : M A := fun w => (Return a, w).
Definition throw {A} (e : JsError) : M A := fun w => (Throw e, w).
Definition bind {A B} (m : M A) (k : A -> M B) : M B :=
  fun w => match m w with
           | (Return a, w') => k a w'
           | (Throw e, w') => (Throw e, w')
           end.
Definition tryCatch {A} (m : M A) (handler : JsError -> M A) : M A :=
  fun w => match m w with
           | (Return a, w') => (Return a, w')
           | (Throw e, w') => handler e w'
           end.
Definition lift {A} (o : Outcome A) : M A := fun w => (o, w).

Notation "'let!' x ':=' m 'in' k" := (bind m (fun x => k))
  (at level 10, x name, m at level 100, k at level 200).

(** [for (const x of l) body], threading what the body updates. *)
Fixpoint forOf {A S} (l : list A) (body : A -> S -> M S) (s : S) : M S :=
  match l with
  | [] => ret s
  | x :: rest => let! s' := body x s in forOf rest body s'
  end.

(** [fetch]: an aborted signal rejects the call with an [AbortError];
    otherwise the server decides. *)
Definition fetch (P : Platform) (c : Call) : M Response :=
  fun w =>
    let t := length w in
    if aborted (callSignal c) t then (Throw AbortError, w ++ [c])
    else match server P t c with
         | Rejects e => (Throw e, w ++ [c])
         | Responds r => (Return r, w ++ [c])
         end.

(** [await response.json()] *)
Definition readJson (r : Response) : M Json :=
  match json r with
  | Some j => ret j
  | None => throw (SyntaxError (js "Unexpected end of JSON input"))
  end.

Definition currentTime (P : Platform) : M jsstring :=
  fun w => (Return (now P (length w)), w).

(** A value in a template literal. *)
Definition str (v : option jsstring) : jsstring :=
  match v with
  | Some s => s
  | None => js "undefined"
  end.

Definition numberToString (n : nat) : jsstring :=
  js (DecimalString.NilZero.string_of_uint (Nat.to_uint n)).

(** [!v] is false *)
Definition truthy (v : option jsstring) : bool :=
  match v with
  | Some (_ :: _) => true
  | _ => false
  end.

(** ** [src/strategies/bluesky.js] *)

Record BlueskyOptions := {
  identifier : option jsstring;
  password : option jsstring;
  host : option jsstring
}.

Definition getCreateSessionUrl (options : BlueskyOptions) : jsstring :=
  js "https://" ++ str (host options) ++ js "/xrpc/com.atproto.server.createSession".

Definition getPostMessageUrl (options : BlueskyOptions) : jsstring :=
  js "https://" ++ str (host options) ++ js "/xrpc/com.atproto.repo.createRecord".

Definition getUploadBlobUrl (options : BlueskyOptions) : jsstring :=
  js "https://" ++ str (host options) ++ js "/xrpc/com.atproto.repo.uploadBlob".

Definition getResolveHandleUrl (options : BlueskyOptions) : jsstring :=
  js "https://" ++ str (host options) ++ js "/xrpc/com.atproto.identity.resolveHandle".

(** The message of the error raised on a response that is not [ok]. *)
Definition failureMessage (r : Response) (what : jsstring) (errorBody : Json) : jsstring :=
  numberToString (status r) ++ js " " ++ statusText r ++ js ": " ++ what ++ [10%N]
  ++ str (j_error errorBody) ++ js " - " ++ str (j_message errorBody).

Definition resolveHandle (P : Platform) (options : BlueskyOptions)
    (handle : option jsstring) (signal : option AbortSignal) : M (option jsstring) :=
  let url := getResolveHandleUrl options in
  let! response := fetch P {| url := url; query := [(js "handle", str handle)];
                         method := js "GET"; headers := []; body := NoBody;
                         callSignal := signal |} in
  if ok response
  then let! result := readJson response in ret (j_did result)
  else let! errorBody := readJson response in
       throw (Error (failureMessage response
                (js "Failed to resolve handle " ++ [34%N] ++ str handle ++ [34%N] ++ js ":")
                errorBody)).

Definition uploadImage (P : Platform) (options : BlueskyOptions) (session : Json)
    (imageData : ImageData) (signal : option AbortSignal) : M Json :=
  let url := getUploadBlobUrl options in
  let! response := fetch P {| url := url; query := [];
                         method := js "POST";
                         headers := [(js "Content-Type", js "*/*");
                                     (js "Authorization", js "Bearer " ++ str (j_accessJwt session))];
                         body := BinaryBody imageData;
                         callSignal := signal |} in
  if ok response
  then readJson response
  else let! errorBody := readJson response in
       throw (Error (failureMessage response (js "Failed to upload image:") errorBody)).

Definition isMention (feature : Feature) : bool :=
  jsEq (type_ feature) MENTION_FACET && truthy (did feature).

Definition resolveMentionFacets (P : Platform) (options : BlueskyOptions)
    (facets : list Facet) (signal : option AbortSignal) : M (list Facet) :=
  forOf facets (fun facet processedFacets =>
    let! processedFeatures := forOf (features facet) (fun feature processedFeatures =>
        if isMention feature
        then tryCatch
               (let! did' := resolveHandle P options (did feature) signal in
                ret (processedFeatures ++
                     [ {| type_ := type_ feature; did := did';
                          uri := uri feature; tag := tag feature |} ]))
               (fun _ => ret processedFeatures)
        else ret (processedFeatures ++ [feature])) [] in
    if 0 <? length processedFeatures
    then ret (processedFacets ++
              [ {| index := index facet; features := processedFeatures |} ])
    else ret processedFacets) [].

Definition createSession (P : Platform) (options : BlueskyOptions)
    (signal : option AbortSignal) : M Json :=
  let url := getCreateSessionUrl options in
  let! response := fetch P {| url := url; query := [];
                         method := js "POST";
                         headers := [(js "Content-Type", js "application/json")];
                         body := SessionBody (identifier options) (password options);
                         callSignal := signal |} in
  if ok response
  then readJson response
  else let! errorBody := readJson response in
       throw (Error (failureMessage response (js "Failed to create session:") errorBody)).

(** [postOptions?.signal] *)
Definition signalOf (postOptions : option PostOptions) : option AbortSignal :=
  match postOptions with
  | Some o => signal o
  | None => None
  end.

(** [postOptions?.images], an array once the options are validated. *)
Definition imagesOf (postOptions : option PostOptions) : list Image :=
  match postOptions with
  | Some {| images := ImagesArray l |} => l
  | _ => []
  end.

Definition postMessage (P : Platform) (options : BlueskyOptions) (session : Json)
    (message : jsstring) (postOptions : option PostOptions) : M Json :=
  let url := getPostMessageUrl options in
  let detected := detectFacets message in
  let rawFacets := facets detected in
  let truncatedMessage := text detected in
  let! facets := resolveMentionFacets P options rawFacets (signalOf postOptions) in
  let! createdAt := currentTime P in
  let! images := forOf (imagesOf postOptions) (fun image images =>
      let! result := uploadImage P options session (data image) (signalOf postOptions) in
      let! dimensions := lift (imageSize P (data image)) in
      ret (images ++ [ {| e_alt := match alt image with
                                   | Some (c :: a) => c :: a
                                   | _ => []
                                   end;
                          e_image := j_blob result;
                          e_aspectRatio := dimensions |} ])) [] in
  let body :=
    {| repo := j_did session;
       collection := js "app.bsky.feed.post";
       record := {| recordType := js "app.bsky.feed.post";
                    recordText := truncatedMessage;
                    recordFacets := facets;
                    createdAt := createdAt;
                    embed := if 0 <? length images
                             then Some {| embedType := js "app.bsky.embed.images";
                                          embedImages := images |}
                             else None |} |} in
  let! response := fetch P {| url := url; query := [];
                         method := js "POST";
                         headers := [(js "Content-Type", js "application/json");
                                     (js "Authorization", js "Bearer " ++ str (j_accessJwt session))];
                         body := RecordBody body;
                         callSignal := signalOf postOptions |} in
  if ok response
  then readJson response
  else let! errorBody := readJson response in
       throw (Error (failureMessage response (js "Failed to post message:") errorBody)).

(** Modelled from the spec: the image check of [validatePostOptions]
    ([src/util/options.js], not among the sources).  From the spec (4.5):
    any supplied image must carry a concrete binary payload; the messages
    are the ones the tests expect. *)
Definition validateImage (image : Image) : Outcome unit :=
  match data image with
  | DataMissing => Throw (TypeError (js "Image must have data."))
  | DataNotBytes => Throw (TypeError (js "Image data must be a Uint8Array."))
  | DataBytes _ => Return tt
  end.

(** Modelled from the spec: the images of [validatePostOptions], checked
    in order. *)
Fixpoint validateImages (l : list Image) : Outcome unit :=
  match l with
  | [] => Return tt
  | image :: rest =>
      match validateImage image with
      | Return _ => validateImages rest
      | Throw e => Throw e
      end
  end.

(** Modelled from the spec: [validatePostOptions] of
    [src/util/options.js], which is not among the sources (4.5: call-time
    validation of the options, before any network call). *)
Definition validatePostOptions (postOptions : option PostOptions) : Outcome unit :=
  match postOptions with
  | None => Return tt
  | Some o =>
      match images o with
      | ImagesAbsent => Return tt
      | ImagesNotArray => Throw (TypeError (js "images must be an array."))
      | ImagesArray l => validateImages l
      end
  end.

Record BlueskyStrategy := {
  MAX_MESSAGE_LENGTH : nat;
  strategyId : jsstring;          (* id *)
  strategyName : jsstring;        (* name *)
  options : BlueskyOptions        (* #options *)
}.

(** [new BlueskyStrategy(options)] *)
Definition newBlueskyStrategy (options : BlueskyOptions) : Outcome BlueskyStrategy :=
  if negb (truthy (identifier options)) then Throw (TypeError (js "Missing identifier."))
  else if negb (truthy (password options)) then Throw (TypeError (js "Missing password."))
  else if negb (truthy (host options)) then Throw (TypeError (js "Missing host."))
  else Return {| MAX_MESSAGE_LENGTH := 300;
                 strategyId := js "bluesky";
                 strategyName := js "Bluesky";
                 options := options |}.

Definition post (P : Platform) (self : BlueskyStrategy)
    (message : option jsstring) (postOptions : option PostOptions) : M Json :=
  if negb (truthy message) then throw (TypeError (js "Missing message to post."))
  else
    let! valid := lift (validatePostOptions postOptions) in
    let! session := createSession P (options self) (signalOf postOptions) in
    postMessage P (options self) session (str message) postOptions.

(** [s.split(sep)] for a one-unit separator *)
Fixpoint split (sep : N) (s : jsstring) : list jsstring :=
  match s with
  | [] => [[]]
  | c :: rest =>
      if (c =? sep)%N then [] :: split sep rest
      else match split sep rest with
           | part :: parts => (c :: part) :: parts
           | [] => [[c]]
           end
  end.

(** [response] is [None] for [null] or [undefined]. *)
Definition getUrlFromResponse (self : BlueskyStrategy) (response : option Json)
    : Outcome jsstring :=
  let uri := match response with Some r => j_uri r | None => None end in
  if negb (truthy uri) then Throw (Error (js "Post URI not found in response"))
  else
    let parts := split 47 (str uri) in
    let recordId := last parts in
    Return (js "https://bsky.app/profile/" ++ str (identifier (options self))
            ++ js "/post/" ++ str recordId).

(** ** The broadcaster

    [Client] of [src/client.js], whose [post] [bin.js] calls, is not among
    the sources; this section follows the spec (4.1, 5, 6). *)

(** Modelled from the spec: the adapter contract of [src/client.js] (4.5):
    a display name, [post], given here by the value its call settles with
    (adapters share no mutable state, 5), and [getUrlFromResponse]. *)
Record Strategy := {
  name : jsstring;
  postOf : option jsstring -> option PostOptions -> Outcome Json;
  urlOf : Json -> jsstring
}.

(** Modelled from the spec: the outcomes of [src/client.js] (6):
    [{ok: true, url, response}] or [{ok: false, reason}]. *)
Inductive PostResult :=
  | SuccessResponse (response : Json) (url : jsstring)
  | FailureResponse (reason : JsError).

(** Modelled from the spec: the outcome of one adapter's call in
    [src/client.js], once it has settled (4.1, 7). *)
Definition outcome (message : option jsstring) (postOptions : option PostOptions)
    (strategy : Strategy) : PostResult :=
  match postOf strategy message postOptions with
  | Return response => SuccessResponse response (urlOf strategy response)
  | Throw reason => FailureResponse reason
  end.

(** Modelled from the spec: in [src/client.js], the call of adapter [i]
    settles and its outcome is stored at index [i] (5: results are joined
    and re-sequenced, never collected in completion order). *)
Definition settle (strategies : list Strategy) (message : option jsstring)
    (postOptions : option PostOptions)
    (slots : list (option PostResult)) (i : nat) : list (option PostResult) :=
  match strategies !! i with
  | Some strategy => <[i := Some (outcome message postOptions strategy)]> slots
  | None => slots
  end.

(** Modelled from the spec: [Client.post] of [src/client.js] (4.1): every
    adapter's [post] is invoked, the calls complete in the order
    [completion] (a list of adapter indices), and the result is there once
    every call has settled. *)
Definition clientPost (strategies : list Strategy) (message : option jsstring)
    (postOptions : option PostOptions) (completion : list nat)
    : option (list PostResult) :=
  let pending := replicate (length strategies) None in
  let settled := foldl (settle strategies message postOptions) pending completion in
  mapM (fun slot => slot) settled.

(** ** [bin.js]: reporting the responses *)

Definition isSuccessResponse (response : PostResult) : bool :=
  match response with
  | SuccessResponse _ _ => true
  | FailureResponse _ => false
  end.

(** What [responses.forEach] prints first for the response at [index];
    [strategies[index].name] is a [TypeError] when there is no such
    strategy. *)
Definition reportLine (strategies : list Strategy) (response : PostResult)
    (index : nat) : Outcome jsstring :=
  match strategies !! index with
  | Some strategy =>
      if isSuccessResponse response
      then Return ([9989%N; 32%N] ++ name strategy ++ js " succeeded.")
      else Return ([10060%N; 32%N] ++ name strategy ++ js " failed.")
  | None => Throw (TypeError (js "Cannot read properties of undefined (reading 'name')"))
  end.

Definition exitCode (responses : list PostResult) : nat :=
  if forallb isSuccessResponse responses then 0 else 1.

(** ** Fixtures of [tests/strategies/bluesky.test.js] *)

Definition HOST : jsstring := js "test.social".

Definition testOptions : BlueskyOptions :=
  {| identifier := Some (js "testuser");
     password := Some (js "password");
     host := Some HOST |}.

Definition emptyJson : Json :=
  {| j_did := None; j_accessJwt := None; j_blob := None; j_uri := None;
     j_cid := None; j_error := None; j_message := None |}.

Definition CREATE_SESSION_RESPONSE : Json :=
  {| j_did := Some (js "did:plc:rzf7l6olyl67yfy2jwufdq7f");
     j_accessJwt := Some (js "foobar");
     j_blob := None; j_uri := None; j_cid := None;
     j_error := None; j_message := None |}.

Definition CREATE_RECORD_RESPONSE : Json :=
  {| j_did := None; j_accessJwt := None; j_blob := None;
     j_uri := Some (js "at://did:plc:abcxyz/app.bsky.feed.post/abcxyz");
     j_cid := Some (js "bafyreieya2tik2z5e2jjin3qozcgzvvbirwo6di6gjftq45mr5ujkqe44i");
     j_error := None; j_message := None |}.

Definition jsonResponse (code : nat) (reason : jsstring) (j : Json) : Reply :=
  Responds {| ok := (200 <=? code) && (code <? 300); status := code;
              statusText := reason; json := Some j |}.

Fixpoint lookupHandle (directory : list (jsstring * jsstring)) (handle : jsstring)
    : option jsstring :=
  match directory with
  | [] => None
  | (h, d) :: rest => if jsEq h handle then Some d else lookupHandle rest handle
  end.

(** The mock server of the tests: it creates sessions and records, and
    resolves the handles of [directory]; any other handle is answered with
    400 "Handle not found". *)
Definition mockServer (directory : list (jsstring * jsstring)) (t : nat) (c : Call) : Reply :=
  if jsEq (url c) (getCreateSessionUrl testOptions)
  then jsonResponse 200 (js "OK") CREATE_SESSION_RESPONSE
  else if jsEq (url c) (getPostMessageUrl testOptions)
  then jsonResponse 200 (js "OK") CREATE_RECORD_RESPONSE
  else if jsEq (url c) (getResolveHandleUrl testOptions)
  then match query c with
       | [(_, handle)] =>
           match lookupHandle directory handle with
           | Some d =>
               jsonResponse 200 (js "OK")
                 {| j_did := Some d; j_accessJwt := None; j_blob := None;
                    j_uri := None; j_cid := None; j_error := None; j_message := None |}
           | None =>
               jsonResponse 400 (js "Bad Request")
                 {| j_did := None; j_accessJwt := None; j_blob := None;
                    j_uri := None; j_cid := None;
                    j_error := Some (js "InvalidRequest");
                    j_message := Some (js "Handle not found") |}
           end
       | _ => Rejects (TypeError (js "fetch failed"))
       end
  else Rejects (TypeError (js "fetch failed")).

Definition mockPlatform (directory : list (jsstring * jsstring)) : Platform :=
  {| server := mockServer directory;
     imageSize := fun _ => Return (20, 19);
     now := fun _ => js "2025-01-01T00:00:00.000Z" |}.

Definition testStrategy : BlueskyStrategy :=
  {| MAX_MESSAGE_LENGTH := 300; strategyId := js "bluesky";
     strategyName := js "Bluesky"; options := testOptions |}.

(** The facets of the record a call submits. *)
Definition submittedFacets (c : Call) : list Facet :=
  match body c with
  | RecordBody b => recordFacets (record b)
  | _ => []
  end.

Definition submittedText (c : Call) : jsstring :=
  match body c with
  | RecordBody b => recordText (record b)
  | _ => []
  end.

(** ** Auxiliary notions used in the proofs *)

(** The boundary of a greedy match: the input ends, or white space follows. *)
Definition endsToken (s : jsstring) : Prop :=
  s = [] \/ exists w rest, s = w :: rest /\ isWhiteSpace w = true.

Definition startsLow (s : jsstring) : bool :=
  match s with
  | d :: _ => isLowSurrogate d
  | [] => false
  end.

Ltac unfold_classes :=
  unfold isWhiteSpace, isLowSurrogate, isHighSurrogate in *;
  repeat match goal with
  | H : _ && _ = true |- _ => apply andb_true_iff in H as [? ?]
  | H : _ || _ = true |- _ => apply orb_true_iff in H as [?|?]
  | H : (_ <=? _)%N = true |- _ => apply N.leb_le in H
  | H : (_ =? _)%N = true |- _ => apply N.eqb_eq in H
  end.

Definition firstLow (ts : list Token) : bool :=
  match ts with
  | Text t :: _ => startsLow t
  | _ => false
  end.

(** A callback that turns a URL into text that does not begin with a low
    surrogate: both the placeholder and the truncated form are such. *)
Definition keepsStart (callback : jsstring -> jsstring) : Prop :=
  forall u rest, startsLow (callback (104%N :: u) ++ rest) = false.

Definition isUrlToken (u : jsstring) : Prop := matchUrlAt u = Some (length u).

(** [signal] fires during, or before, the call number [k]. *)
Definition firesDuring (signal : option AbortSignal) (k : nat) : Prop :=
  exists s, signal = Some s /\ firesAt s = Some k.

(** [m] only issues calls, each carrying [signal]; and when it has issued
    the call during which the signal fires, or a later one, it has thrown
    an [AbortError]. *)
Definition Cancels {A} (signal : option AbortSignal) (k : nat) (m : M A) : Prop :=
  forall w, exists calls,
    snd (m w) = w ++ calls /\
    Forall (fun c => callSignal c = signal) calls /\
    (firesDuring signal k -> calls <> [] -> k < length (w ++ calls) ->
     fst (m w) = Throw AbortError).

(** [m] throws an [AbortError] when it starts after the signal has fired. *)
Definition AbortsWhenFired {A} (k : nat) (m : M A) : Prop :=
  forall w, k <= length w -> fst (m w) = Throw AbortError.

(** [m] always returns, issuing only calls that carry [signal]. *)
Definition Resolves {A} (signal : option AbortSignal) (m : M A) : Prop :=
  forall w, exists a calls,
    m w = (Return a, w ++ calls) /\
    Forall (fun c => callSignal c = signal) calls.

(** The body of the inner loop of [resolveMentionFacets]. *)
Definition resolveFeature (P : Platform) (options : BlueskyOptions)
    (signal : option AbortSignal) (feature : Feature)
    (processedFeatures : list Feature) : M (list Feature) :=
  if isMention feature
  then tryCatch
         (let! did' := resolveHandle P options (did feature) signal in
          ret (processedFeatures ++
               [ {| type_ := type_ feature; did := did';
                    uri := uri feature; tag := tag feature |} ]))
         (fun _ => ret processedFeatures)
  else ret (processedFeatures ++ [feature]).

(** The body of the outer loop of [resolveMentionFacets]. *)
Definition resolveFacet (P : Platform) (options : BlueskyOptions)
    (signal : option AbortSignal) (facet : Facet)
    (processedFacets : list Facet) : M (list Facet) :=
  let! processedFeatures :=
    forOf (features facet) (resolveFeature P options signal) [] in
  if 0 <? length processedFeatures
  then ret (processedFacets ++
            [ {| index := index facet; features := processedFeatures |} ])
  else ret processedFacets.

(** What [postMessage] does once the facets are resolved. *)
Definition submit (P : Platform) (options : BlueskyOptions) (session : Json)
    (truncatedMessage : jsstring) (postOptions : option PostOptions)
    (facets : list Facet) : M Json :=
  let url := getPostMessageUrl options in
  let! createdAt := currentTime P in
  let! images :=
    forOf (imagesOf postOptions) (fun image images =>
      let! result := uploadImage P options session (data image) (signalOf postOptions) in
      let! dimensions := lift (imageSize P (data image)) in
      ret (images ++ [ {| e_alt := match alt image with
                                   | Some (c :: a) => c :: a
                                   | _ => []
                                   end;
                          e_image := j_blob result;
                          e_aspectRatio := dimensions |} ])) [] in
  let body :=
    {| repo := j_did session;
       collection := js "app.bsky.feed.post";
       record := {| recordType := js "app.bsky.feed.post";
                    recordText := truncatedMessage;
                    recordFacets := facets;
                    createdAt := createdAt;
                    embed := if 0 <? length images
                             then Some {| embedType := js "app.bsky.embed.images";
                                          embedImages := images |}
                             else None |} |} in
  let! response := fetch P {| url := url; query := [];
                         method := js "POST";
                         headers := [(js "Content-Type", js "application/json");
                                     (js "Authorization", js "Bearer " ++ str (j_accessJwt session))];
                         body := RecordBody body;
                         callSignal := signalOf postOptions |} in
  if ok response
  then readJson response
  else let! errorBody := readJson response in
       throw (Error (failureMessage response (js "Failed to post message:") errorBody)).

(** Prefixing the result of a computation that builds a list. *)
Definition prepend {A} (acc : list A) (r : Outcome (list A) * World)
    : Outcome (list A) * World :=
  match r with
  | (Return out, w) => (Return (acc ++ out), w)
  | (Throw e, w) => (Throw e, w)
  end.

(** The first call of [post]. *)
Definition sessionCall (options : BlueskyOptions) (signal : option AbortSignal) : Call :=
  {| url := getCreateSessionUrl options; query := [];
     method := js "POST";
     headers := [(js "Content-Type", js "application/json")];
     body := SessionBody (identifier options) (password options);
     callSignal := signal |}.

(** [{...feature, did}] *)
Definition withDid (feature : Feature) (did' : option jsstring) : Feature :=
  {| type_ := type_ feature; did := did'; uri := uri feature; tag := tag feature |}.

(** A facet with the single feature [feature], as the detector builds them. *)
Definition facetOf (idx : ByteSlice) (feature : Feature) : Facet :=
  {| index := idx; features := [feature] |}.

Definition ascending (a b : ByteSlice) : Prop := byteStart a <= byteStart b.

Definition aliceAndBob : list (jsstring * jsstring) :=
  [ (js "alice", js "did:plc:alice123");
    (js "bob.example.com", js "did:plc:bob456") ].

Definition onlyAlice : list (jsstring * jsstring) :=
  [ (js "alice", js "did:plc:alice123") ].

Definition mentionOf (handle : jsstring) : Feature :=
  {| type_ := MENTION_FACET; did := Some handle; uri := None; tag := None |}.

(** Three adapters for the examples: the Bluesky strategy against the mock
    server, one that always rejects, and the first again under another
    name. *)
Definition blueskyAdapter : Strategy :=
  {| name := strategyName testStrategy;
     postOf := fun message postOptions =>
                 fst (post (mockPlatform aliceAndBob) testStrategy message postOptions []);
     urlOf := fun response => str (j_uri response) |}.

Definition failingAdapter : Strategy :=
  {| name := js "Mastodon";
     postOf := fun _ _ => Throw (Error (js "401 Unauthorized"));
     urlOf := fun response => str (j_uri response) |}.

Definition thirdAdapter : Strategy :=
  {| name := js "LinkedIn";
     postOf := postOf blueskyAdapter;
     urlOf := fun response => str (j_cid response) |}.

(** A span lies in the text and is not empty. *)
Definition inText (t : jsstring) (sp : Span) : Prop :=
  0 < spanLength sp /\ spanEnd sp <= length t.

Definition apart (a b : Span) : Prop := overlaps a b = false.

Definition precedes (a b : Span) : Prop := spanEnd a <= spanStart b.

(** The URL tokens of a token list, in order. *)
Definition urlsOf (ts : list Token) : list jsstring :=
  omap (fun t => match t with Url u => Some u | Text _ => None end) ts.

Definition linkFeature (target : jsstring) : Feature :=
  {| type_ := LINK_FACET; did := None; uri := Some target; tag := None |}.

(** The long URL of the truncation tests. *)
Definition longUrl : jsstring :=
  js "https://example.com/very/long/path/that/should/be/truncated/because/it/exceeds/the/limit".

(** ** More of [bin.js] and of the strategy, for the further properties *)

(** No URL token of the message is longer than the display length. *)
Definition urlsAreShort (message : jsstring) : Prop :=
  Forall (fun u => length u <= URL_DISPLAY_LENGTH) (urlsOf (tokens message)).

(** The call [resolveHandle] makes for a handle. *)
Definition lookupCall (options : BlueskyOptions) (signal : option AbortSignal)
    (handle : option jsstring) : Call :=
  {| url := getResolveHandleUrl options; query := [(js "handle", str handle)];
     method := js "GET"; headers := []; body := NoBody;
     callSignal := signal |}.

(** The handles [resolveMentionFacets] looks up, in order: the [did] of
    every feature that is a mention with a [did]. *)
Fixpoint handlesOf (features : list Feature) : list (option jsstring) :=
  match features with
  | [] => []
  | feature :: rest =>
      if isMention feature then did feature :: handlesOf rest else handlesOf rest
  end.

Definition mentionHandles (facets : list Facet) : list (option jsstring) :=
  flat_map (fun facet => handlesOf (features facet)) facets.

Definition hasFeatures (facet : Facet) : bool := 0 <? length (features facet).

(** A server that refuses every request, as in the test "should handle
    create session request failure". *)
Definition refusingPlatform : Platform :=
  {| server := fun _ _ =>
       jsonResponse 400 (js "Bad Request")
         {| j_did := None; j_accessJwt := None; j_blob := None;
            j_uri := None; j_cid := None;
            j_error := Some (js "Invalid credentials");
            j_message := Some (js "The credentials provided are invalid.") |};
     imageSize := fun _ => Return (20, 19);
     now := fun _ => js "2025-01-01T00:00:00.000Z" |}.



(** The body of the loop over the images in [postMessage]. *)
Definition uploadStep (P : Platform) (options : BlueskyOptions) (session : Json)
    (postOptions : option PostOptions) (image : Image) (images : list EmbedImage)
    : M (list EmbedImage) :=
  let! result := uploadImage P options session (data image) (signalOf postOptions) in
  let! dimensions := lift (imageSize P (data image)) in
  ret (images ++ [ {| e_alt := match alt image with
                               | Some (c :: a) => c :: a
                               | _ => []
                               end;
                      e_image := j_blob result;
                      e_aspectRatio := dimensions |} ]).



(** ** [bin.js]: the message, the image and the flags *)

(** The regular expression [/\\n/]: a backslash followed by [n]. *)
Definition matchNewlineEscape (s : jsstring) : option nat :=
  match s with
  | c :: d :: _ => if (c =? 92)%N && (d =? 110)%N then Some 2 else None
  | _ => None
  end.

(** [positionals[0].replace(/\\n/g, "\n")] *)
Definition unescapeNewlines (s : jsstring) : jsstring :=
  replace matchNewlineEscape (fun _ => [10%N]) s.

(** A backslash followed by [n] occurs in [s]. *)
Fixpoint hasNewlineEscape (s : jsstring) : bool :=
  match s with
  | c :: rest =>
      match rest with
      | d :: _ => (c =? 92)%N && (d =? 110)%N
      | [] => false
      end || hasNewlineEscape rest
  | [] => false
  end.

(** The class [[\\/]] *)
Definition isPathSeparator (c : N) : bool := (c =? 92)%N || (c =? 47)%N.

(** [s.split(re)] for a regular expression that is a character class *)
Fixpoint splitWhere (isSeparator : N -> bool) (s : jsstring) : list jsstring :=
  match s with
  | [] => [[]]
  | c :: rest =>
      if isSeparator c then [] :: splitWhere isSeparator rest
      else match splitWhere isSeparator rest with
           | part :: parts => (c :: part) :: parts
           | [] => [[c]]
           end
  end.

(** [flags.image.split(/[\\/]/).pop() || flags.image] *)
Definition imageBasename (image : jsstring) : jsstring :=
  match last (splitWhere isPathSeparator image) with
  | Some (c :: name) => c :: name
  | _ => image
  end.

(** [flags["image-alt"] || basename] *)
Definition imageAltText (image : jsstring) (imageAlt : option jsstring) : jsstring :=
  match imageAlt with
  | Some (c :: a) => c :: a
  | _ => imageBasename image
  end.

(** The values of [parseArgs]: a boolean flag is [true] or absent, a string
    option is a string or absent. *)
Record Flags := {
  twitter : bool;
  mastodon : bool;
  bluesky : bool;
  linkedin : bool;
  discord : bool;
  discordWebhook : bool;      (* "discord-webhook" *)
  devto : bool;
  telegram : bool;
  slack : bool;
  nostr : bool;
  mcp : bool;
  file : option jsstring;
  image : option jsstring;
  imageAlt : option jsstring;  (* "image-alt" *)
  help : bool;
  version : bool
}.

(** What the script does before it builds the strategies. *)
Inductive Startup :=
  | PrintVersion      (* prints the version, exit code 0 *)
  | FileWithMcp       (* "--file cannot be used with --mcp", exit code 1 *)
  | Usage             (* prints the usage, exit code 1 *)
  | Proceed.

Definition noPlatform (flags : Flags) : bool :=
  negb (twitter flags) && negb (mastodon flags) && negb (bluesky flags)
  && negb (linkedin flags) && negb (discord flags) && negb (discordWebhook flags)
  && negb (devto flags) && negb (telegram flags) && negb (slack flags)
  && negb (nostr flags).

Definition startup (flags : Flags) (positionals : list jsstring) : Startup :=
  if version flags then PrintVersion
  else if mcp flags && truthy (file flags) then FileWithMcp
  else if help flags
          || (negb (mcp flags) && (length positionals =? 0) && negb (truthy (file flags)))
          || (noPlatform flags && negb (mcp flags))
  then Usage
  else Proceed.

Inductive StrategyKind :=
  | Twitter | Mastodon | Bluesky | LinkedIn | Discord | DiscordWebhook
  | Devto | Telegram | Slack | Nostr.

(** The strategies the flags ask for, in the order in which they are
    pushed; building one can fail for a missing environment variable, and
    Nostr's for a Node.js before v22, which ends the script. *)
Definition requested (flags : Flags) : list StrategyKind :=
  (if twitter flags then [Twitter] else [])
  ++ (if mastodon flags then [Mastodon] else [])
  ++ (if bluesky flags then [Bluesky] else [])
  ++ (if linkedin flags then [LinkedIn] else [])
  ++ (if discord flags then [Discord] else [])
  ++ (if discordWebhook flags then [DiscordWebhook] else [])
  ++ (if devto flags then [Devto] else [])
  ++ (if telegram flags then [Telegram] else [])
  ++ (if slack flags then [Slack] else [])
  ++ (if nostr flags then [Nostr] else []).

Definition allPlatforms : list StrategyKind :=
  [Twitter; Mastodon; Bluesky; LinkedIn; Discord; DiscordWebhook;
   Devto; Telegram; Slack; Nostr].

(** The message of normal operation: the file when [--file] is given,
    else the first positional with its newline escapes replaced;
    [readFile] is [fs.readFileSync(_, "utf8")]. *)
Definition commandLineMessage (readFile : jsstring -> Outcome jsstring)
    (flags : Flags) (positionals : list jsstring) : Outcome jsstring :=
  if truthy (file flags) then readFile (str (file flags))
  else match positionals with
       | first :: _ => Return (unescapeNewlines first)
       | [] => Throw (TypeError
                 (js "Cannot read properties of undefined (reading 'replace')"))
       end.

(** What [responses.forEach] writes: lines on standard output
    ([console.log]; for a success the name line, [response.url ??
    response.response], where the url of a success is always there, and an
    empty line), reasons on standard error ([console.error]). *)
Inductive ConsoleEntry :=
  | Log (line : jsstring)
  | LogError (reason : JsError).

(** [responses.forEach((response, index) => ...)], from [index] on, with
    the exit code and the output so far. *)
Fixpoint reportFrom (strategies : list Strategy) (index : nat)
    (responses : list PostResult) (code : nat) (out : list ConsoleEntry)
    : Outcome (nat * list ConsoleEntry) :=
  match responses with
  | [] => Return (code, out)
  | response :: rest =>
      match reportLine strategies response index with
      | Throw e => Throw e
      | Return line =>
          match response with
          | SuccessResponse _ url =>
              reportFrom strategies (S index) rest code
                (out ++ [Log line; Log url; Log []])
          | FailureResponse reason =>
              reportFrom strategies (S index) rest 1
                (out ++ [Log line; LogError reason; Log []])
          end
      end
  end.

(** The loop of [bin.js], which starts with [exitCode = 0]. *)
Definition report (strategies : list Strategy) (responses : list PostResult)
    : Outcome (nat * list ConsoleEntry) :=
  reportFrom strategies 0 responses 0 [].

Definition reasonOf (response : PostResult) : option JsError :=
  match response with
  | SuccessResponse _ _ => None
  | FailureResponse reason => Some reason
  end.

Definition errorOf (entry : ConsoleEntry) : option JsError :=
  match entry with
  | Log _ => None
  | LogError reason => Some reason
  end.

(** The call carries the password: its body is the one of
    [createSession]. *)
Definition carriesPassword (c : Call) : bool :=
  match body c with
  | SessionBody _ _ => true
  | _ => false
  end.

(** A call that follows the session: to one of the three other endpoints
    of the host, and without the password. *)
Definition afterSession (options : BlueskyOptions) (c : Call) : Prop :=
  carriesPassword c = false /\
  url c ∈ [getResolveHandleUrl options; getUploadBlobUrl options;
           getPostMessageUrl options].

(** [m] only issues calls, each of which satisfies [Q]. *)
Definition Sends {A} (Q : Call -> Prop) (m : M A) : Prop :=
  forall w, exists calls, snd (m w) = w ++ calls /\ Forall Q calls.

(** ** The URL tokens and the code points, as the description has them

    These notions do not mention the scan: they say what a URL is, and
    what it means for a list of tokens to be the URLs of a message. *)

Definition isScheme (p : jsstring) : Prop := p = js "http://" \/ p = js "https://".

(** A URL: the scheme [http://] or [https://] followed by one or more
    code units that are not white space. *)
Definition isUrl (u : jsstring) : Prop :=
  exists scheme body,
    isScheme scheme /\ u = scheme ++ body /\ body <> [] /\
    Forall (fun c => isWhiteSpace c = false) body.

(** A URL begins at the start of [s]. *)
Definition startsUrl (s : jsstring) : Prop :=
  exists scheme c rest,
    isScheme scheme /\ s = scheme ++ c :: rest /\ isWhiteSpace c = false.

(** The tokens are the URLs of the text they make up, leftmost first and
    each as long as it can be: a URL token is a URL and is followed by
    white space or by the end; a text token is not empty, and at none of
    its positions does a URL begin. *)
Fixpoint wellTokenized (ts : list Token) : Prop :=
  match ts with
  | [] => True
  | t :: after =>
      let rest := concat (tokenText <$> after) in
      match t with
      | Url u => isUrl u /\ endsToken rest
      | Text x =>
          x <> [] /\ forall i, i < length x -> ~ startsUrl (drop i (x ++ rest))
      end /\ wellTokenized after
  end.

(** [Hi], U+1F30D, [caf], U+00E9 and a colon, a URL of 70 code units,
    [and], a URL of 14 code units. *)
Definition mixedMessage : jsstring :=
  js "Hi " ++ [55356; 57101]%N ++ js " caf" ++ [233]%N ++ js ": "
  ++ js "https://example.com/very/long/path/that/should/be/truncated/because/it"
  ++ js " and http://foo.bar".

(** A URL of 20 ASCII characters and four characters outside the basic
    plane: 24 characters, 28 code units. *)
Definition astralUrl : jsstring :=
  js "https://example.com/"
  ++ [55356; 57101; 55356; 57101; 55356; 57101; 55356; 57101]%N.

(** ** The UTF-8 encoder

    [new TextEncoder().encode(s)]: the bytes of the code points of [s], one
    byte below U+0080, two below U+0800, three for the rest of the basic
    plane, four for a surrogate pair; a lone surrogate is encoded as
    U+FFFD. *)
Definition utf8OfCodePoint (cp : jsstring) : list N :=
  match cp with
  | [c] =>
      if (c <? 128)%N then [c]
      else if (c <? 2048)%N
      then [N.lor 192 (N.shiftr c 6); N.lor 128 (N.land c 63)]
      else if isHighSurrogate c || isLowSurrogate c
      then [239; 191; 189]%N
      else [N.lor 224 (N.shiftr c 12);
            N.lor 128 (N.land (N.shiftr c 6) 63);
            N.lor 128 (N.land c 63)]
  | [h; l] =>
      let v := (65536 + N.shiftl (h - 55296) 10 + (l - 56320))%N in
      [N.lor 240 (N.shiftr v 18);
       N.lor 128 (N.land (N.shiftr v 12) 63);
       N.lor 128 (N.land (N.shiftr v 6) 63);
       N.lor 128 (N.land v 63)]
  | _ => []
  end.

Definition utf8Encode (s : jsstring) : list N :=
  concat (utf8OfCodePoint <$> codePoints s).

Definition isAscii (c : N) : Prop := (c < 128)%N.

(** U+00E9, [@bob], a URL, U+65E5 and U+672C, [#tag]. *)
Definition accentedMessage : jsstring :=
  [233; 32]%N ++ js "@bob https://example.com " ++ [26085; 26412; 32]%N ++ js "#tag".

(** * Properties *)

Example calculateMessageLength_plain :
  calculateMessageLength (js "Hello world!") = 12.
Proof. reflexivity. Qed.

Example calculateMessageLength_short_urls :
  calculateMessageLength
    (js "Check this out: https://example.com/abcde and http://foo.bar") = 60.
Proof. reflexivity. Qed.

(** "Hello, world! " followed by U+1F30D, a space and U+2728. *)
Example calculateMessageLength_emoji :
  calculateMessageLength (js "Hello, world! " ++ [55356; 57101; 32; 10024]%N) = 17.
Proof. reflexivity. Qed.

(** The threshold is on [url.length], in code units: a URL of 20 ASCII
    characters and four characters outside the basic plane has length 28
    and counts as 27. *)
Example calculateMessageLength_astral_url :
  calculateMessageLength
    (js "https://example.com/"
     ++ [55356; 57101; 55356; 57101; 55356; 57101; 55356; 57101]%N) = 27.
Proof. reflexivity. Qed.

Example tokens_example :
  tokens (js "a http://b.c d") = [Text (js "a "); Url (js "http://b.c"); Text (js " d")].
Proof. reflexivity. Qed.

Example detectFacets_link :
  detectFacets (js "Hello, world! https://example.com") =
  {| facets := [ {| index := {| byteStart := 14; byteEnd := 33 |};
                    features := [ {| type_ := LINK_FACET; did := None;
                                     uri := Some (js "https://example.com"); tag := None |} ] |} ];
     text := js "Hello, world! https://example.com" |}.
Proof. vm_compute. reflexivity. Qed.

Example detectFacets_mentions :
  index <$> facets (detectFacets (js "Hello @alice and @bob.example.com!")) =
  [ {| byteStart := 6; byteEnd := 12 |}; {| byteStart := 17; byteEnd := 33 |} ].
Proof. vm_compute. reflexivity. Qed.

(** ** Facts about the URL pattern and the scan *)

Lemma stripPrefix_Some p s r : stripPrefix p s = Some r -> s = p ++ r.
Proof.
  revert s; induction p as [|a p IH]; intros s H; simpl in *.
  - congruence.
  - destruct s as [|b s]; [discriminate|].
    destruct (N.eqb_spec a b); [|discriminate].
    subst. f_equal. auto.
Qed.

Lemma runLength_le f s : runLength f s <= length s.
Proof. induction s; simpl; [lia|]. destruct (f a); simpl; lia. Qed.

Lemma runLength_stop f s :
  drop (runLength f s) s = [] \/
  exists c rest, drop (runLength f s) s = c :: rest /\ f c = false.
Proof.
  induction s as [|c s IH]; simpl; [by left|].
  destruct (f c) eqn:E; simpl; [exact IH|].
  right; eauto.
Qed.

Lemma urlTail_Some r n :
  urlTail r = Some n ->
  3 < n /\ n <= length r /\ endsToken (drop n r).
Proof.
  unfold urlTail. destruct (stripPrefix (js "://") r) as [t|] eqn:E; [|discriminate].
  apply stripPrefix_Some in E. subst r.
  pose proof (runLength_le (fun c => negb (isWhiteSpace c)) t) as Hle.
  pose proof (runLength_stop (fun c => negb (isWhiteSpace c)) t) as Hstop.
  remember (runLength (fun c => negb (isWhiteSpace c)) t) as m eqn:R.
  destruct m as [|m]; [discriminate|].
  intros [= <-]. split; [lia|]. split; [simpl in *; lia|].
  change (endsToken (drop (S m) t)).
  destruct Hstop as [->|(c & rest & -> & Hc)]; [by left|].
  right. exists c, rest. split; [done|]. by apply negb_false_iff.
Qed.

Lemma matchUrlAt_Some s n :
  matchUrlAt s = Some n ->
  (exists rest, s = 104%N :: rest) /\ 0 < n /\ n <= length s /\ endsToken (drop n s).
Proof.
  unfold matchUrlAt.
  destruct (stripPrefix (js "http") s) as [r|] eqn:E; [|discriminate].
  apply stripPrefix_Some in E. subst s. intros H.
  split; [eexists; reflexivity|].
  assert (Hw : forall m, option_map (fun n => 4 + n) (urlTail r) = Some m ->
      0 < m /\ m <= length (js "http" ++ r) /\ endsToken (drop m (js "http" ++ r))).
  { intros m Hm. destruct (urlTail r) as [k|] eqn:K; [|discriminate].
    injection Hm as <-. apply urlTail_Some in K as (? & ? & ?).
    split; [lia|]. split; [simpl; lia|]. exact H2. }
  destruct r as [|c r']; [by apply Hw|].
  destruct (c =? 115)%N; [|by apply Hw].
  destruct (urlTail r') as [k|] eqn:K; [|by apply Hw].
  injection H as <-. apply urlTail_Some in K as (? & ? & ?).
  split; [lia|]. split; [simpl; lia|]. exact H1.
Qed.

Lemma replaceFrom_skip matchAt callback k s :
  replaceFrom matchAt callback k s = replace matchAt callback (drop k s).
Proof.
  revert k; induction s as [|c s IH]; intros [|k]; simpl; try reflexivity.
  apply IH.
Qed.

Lemma tokensFrom_skip k s : tokensFrom k s = tokens (drop k s).
Proof.
  revert k; induction s as [|c s IH]; intros [|k]; simpl; try reflexivity.
  apply IH.
Qed.

(** One step of the scan at a URL token, and at a code unit outside one. *)
Lemma replace_match callback s k :
  matchUrlAt s = Some (S k) ->
  replace matchUrlAt callback s =
  callback (take (S k) s) ++ replace matchUrlAt callback (drop (S k) s).
Proof.
  intros H. destruct s as [|c s]; [discriminate|].
  unfold replace at 1. simpl. rewrite H. by rewrite replaceFrom_skip.
Qed.

Lemma tokens_match s k :
  matchUrlAt s = Some (S k) ->
  tokens s = Url (take (S k) s) :: tokens (drop (S k) s).
Proof.
  intros H. destruct s as [|c s]; [discriminate|].
  unfold tokens at 1. simpl. rewrite H. by rewrite tokensFrom_skip.
Qed.

Lemma matchUrlAt_not_zero s : matchUrlAt s <> Some 0.
Proof. intros H. apply matchUrlAt_Some in H. lia. Qed.

Lemma replace_nomatch callback c s :
  matchUrlAt (c :: s) = None ->
  replace matchUrlAt callback (c :: s) = c :: replace matchUrlAt callback s.
Proof. intros H. unfold replace. simpl. by rewrite H. Qed.

Lemma tokens_nomatch c s :
  matchUrlAt (c :: s) = None -> tokens (c :: s) = consText c (tokens s).
Proof. intros H. unfold tokens. simpl. by rewrite H. Qed.

(** ** Code points *)

Lemma low_not_high d : isLowSurrogate d = true -> isHighSurrogate d = false.
Proof.
  intros H. destruct (isHighSurrogate d) eqn:E; [|done].
  exfalso. unfold_classes. lia.
Qed.

Lemma whitespace_not_low w : isWhiteSpace w = true -> isLowSurrogate w = false.
Proof.
  intros H. destruct (isLowSurrogate w) eqn:E; [|done].
  exfalso. unfold_classes; lia.
Qed.

(** Prepending a code unit adds a code point, unless it is a high surrogate
    that pairs with the low surrogate after it. *)
Lemma cpLength_cons c s :
  cpLength (c :: s) =
  if isHighSurrogate c && startsLow s then cpLength s else S (cpLength s).
Proof.
  unfold cpLength. destruct s as [|d s]; simpl.
  - by rewrite andb_false_r.
  - destruct (isHighSurrogate c && isLowSurrogate d) eqn:E; simpl; [|done].
    apply andb_true_iff in E as [_ Hd].
    destruct s as [|e s]; simpl; [done|].
    by rewrite (low_not_high d Hd).
Qed.

Lemma startsLow_app a b :
  startsLow b = false -> startsLow (a ++ b) = startsLow a.
Proof. by destruct a. Qed.

Lemma cpLength_app a b :
  startsLow b = false -> cpLength (a ++ b) = cpLength a + cpLength b.
Proof.
  intros Hb. induction a as [|c a IH]; [done|].
  rewrite <- app_comm_cons, !cpLength_cons, startsLow_app, IH by done.
  by destruct (isHighSurrogate c && startsLow a).
Qed.

Lemma cpLength_le s : cpLength s <= length s.
Proof.
  induction s as [|c s IH]; [done|]. rewrite cpLength_cons. simpl.
  destruct (isHighSurrogate c && startsLow s); lia.
Qed.

Lemma cpLength_repeat_x n : cpLength (repeat 120%N n) = n.
Proof.
  induction n as [|n IH]; [done|].
  change (repeat 120%N (S n)) with (120%N :: repeat 120%N n).
  by rewrite cpLength_cons, IH.
Qed.

(** ** The calculated length, token by token *)

Lemma sum_consText c ts :
  sum_list_with contribution (consText c ts) =
  if isHighSurrogate c && firstLow ts
  then sum_list_with contribution ts
  else S (sum_list_with contribution ts).
Proof.
  destruct ts as [|[t|u] ts]; simpl; rewrite ?andb_false_r; try done.
  rewrite cpLength_cons. by destruct (isHighSurrogate c && startsLow t).
Qed.

Lemma concat_consText c ts :
  concat (tokenText <$> consText c ts) = c :: concat (tokenText <$> ts).
Proof. by destruct ts as [|[t|u] ts]. Qed.

Lemma matchUrlAt_low d s : isLowSurrogate d = true -> matchUrlAt (d :: s) = None.
Proof.
  intros Hd. destruct (matchUrlAt (d :: s)) as [n|] eqn:M; [|done].
  apply matchUrlAt_Some in M as ([rest [= -> _]] & _). discriminate.
Qed.

Lemma urlPlaceholder_keepsStart : keepsStart urlPlaceholder.
Proof.
  intros u rest. unfold urlPlaceholder.
  by destruct (URL_DISPLAY_LENGTH <? length (104%N :: u)).
Qed.

Lemma startsLow_replace callback s :
  keepsStart callback ->
  startsLow (replace matchUrlAt callback s) = startsLow s.
Proof.
  intros Hcb. destruct s as [|c s]; [done|].
  destruct (matchUrlAt (c :: s)) as [[|k]|] eqn:M.
  - by apply matchUrlAt_not_zero in M.
  - rewrite (replace_match _ _ _ M).
    apply matchUrlAt_Some in M as ([rest [= -> ->]] & _).
    simpl take. apply Hcb.
  - by rewrite replace_nomatch.
Qed.

Lemma firstLow_tokens s : firstLow (tokens s) = startsLow s.
Proof.
  destruct s as [|c s]; [done|].
  destruct (matchUrlAt (c :: s)) as [[|k]|] eqn:M.
  - by apply matchUrlAt_not_zero in M.
  - rewrite (tokens_match _ _ M).
    by apply matchUrlAt_Some in M as ([rest [= -> ->]] & _).
  - rewrite tokens_nomatch by done. by destruct (tokens s) as [|[t|u] ts].
Qed.

Lemma endsToken_startsLow s : endsToken s -> startsLow s = false.
Proof.
  intros [->|(w & rest & -> & Hw)]; [done|]. by apply whitespace_not_low.
Qed.

Lemma tokens_concat s : concat (tokenText <$> tokens s) = s.
Proof.
  remember (length s) as n eqn:Hn. revert s Hn.
  induction n as [n IH] using lt_wf_ind. intros [|c s] Hn; [done|].
  destruct (matchUrlAt (c :: s)) as [[|k]|] eqn:M.
  - by apply matchUrlAt_not_zero in M.
  - rewrite (tokens_match _ _ M). rewrite fmap_cons. simpl concat.
    unfold tokenText at 1.
    pose proof (matchUrlAt_Some _ _ M) as (_ & _ & Hle & _).
    rewrite (IH (length (drop (S k) (c :: s)))); [simpl; by rewrite take_drop| |done].
    rewrite length_drop. subst n. simpl in *. lia.
  - rewrite tokens_nomatch, concat_consText by done.
    f_equal. apply (IH (length s)); [subst n; simpl; lia|done].
Qed.

Lemma calculateMessageLength_tokens s :
  calculateMessageLength s = sum_list_with contribution (tokens s).
Proof.
  unfold calculateMessageLength.
  remember (length s) as n eqn:Hn. revert s Hn.
  induction n as [n IH] using lt_wf_ind. intros [|c s] Hn; [done|].
  destruct (matchUrlAt (c :: s)) as [[|k]|] eqn:M.
  - by apply matchUrlAt_not_zero in M.
  - rewrite (replace_match _ _ _ M), (tokens_match _ _ M).
    pose proof (matchUrlAt_Some _ _ M) as (_ & _ & Hle & Hend).
    rewrite cpLength_app.
    2:{ rewrite startsLow_replace by apply urlPlaceholder_keepsStart.
        by apply endsToken_startsLow. }
    simpl sum_list_with. f_equal.
    + unfold urlPlaceholder.
      simpl take. simpl length.
      destruct (URL_DISPLAY_LENGTH <? _); [apply cpLength_repeat_x|done].
    + apply (IH (length (drop (S k) (c :: s)))); [|done].
      rewrite length_drop. subst n. simpl in *. lia.
  - rewrite replace_nomatch, tokens_nomatch by done.
    rewrite cpLength_cons, sum_consText.
    rewrite startsLow_replace by apply urlPlaceholder_keepsStart.
    rewrite firstLow_tokens.
    rewrite (IH (length s)) by (subst n; simpl; lia || done).
    done.
Qed.

(** A URL token of the scan is, on its own, a full match of the pattern. *)
Lemma runLength_take f s : runLength f (take (runLength f s) s) = runLength f s.
Proof.
  induction s as [|c s IH]; [done|]. simpl.
  destruct (f c) eqn:E; simpl; [|done]. by rewrite E, IH.
Qed.

Lemma stripPrefix_app p s : stripPrefix p (p ++ s) = Some s.
Proof. induction p as [|a p IH]; simpl; [done|]. by rewrite N.eqb_refl. Qed.

Lemma take_literal (p : jsstring) n t : take (length p + n) (p ++ t) = p ++ take n t.
Proof. induction p as [|a p IH]; simpl; [done|]. by rewrite IH. Qed.

Lemma urlTail_take r n : urlTail r = Some n -> urlTail (take n r) = Some n.
Proof.
  unfold urlTail. destruct (stripPrefix (js "://") r) as [t|] eqn:E; [|discriminate].
  apply stripPrefix_Some in E. subst r.
  remember (runLength (fun c => negb (isWhiteSpace c)) t) as m eqn:R.
  destruct m as [|m]; [discriminate|]. intros [= <-].
  change (S (S (S (S m)))) with (length (js "://") + S m) at 1.
  rewrite take_literal, stripPrefix_app.
  by rewrite R, runLength_take, <- R.
Qed.

Lemma matchUrlAt_take s n : matchUrlAt s = Some n -> matchUrlAt (take n s) = Some n.
Proof.
  unfold matchUrlAt.
  destruct (stripPrefix (js "http") s) as [r|] eqn:E; [|discriminate].
  apply stripPrefix_Some in E. subst s.
  assert (Hw : forall m, option_map (fun n => 4 + n) (urlTail r) = Some m ->
      exists j, m = 4 + j /\ urlTail r = Some j).
  { intros m Hm. destruct (urlTail r) as [j|]; [|discriminate].
    injection Hm as <-. eauto. }
  destruct r as [|c r'].
  - intros H. by apply Hw in H as (j & -> & ?).
  - destruct (N.eqb_spec c 115) as [->|Hc].
    + destruct (urlTail r') as [j|] eqn:K.
      * intros [= <-].
        change (S (S (S (S (S j))))) with (length (js "http") + S j) at 1.
        rewrite take_literal, stripPrefix_app. simpl take.
        cbv beta iota. change (115 =? 115)%N with true. cbv iota.
        by rewrite (urlTail_take _ _ K).
      * intros H. by apply Hw in H as (j & -> & ?).
    + intros H. apply Hw in H as (j & -> & K).
      pose proof (urlTail_Some _ _ K) as (Hj & _ & _).
      destruct j as [|j]; [lia|].
      change (4 + S j) with (length (js "http") + S j) at 1.
      rewrite take_literal, stripPrefix_app. rewrite (urlTail_take _ _ K).
      simpl take. cbv beta iota. apply N.eqb_neq in Hc. by rewrite Hc.
Qed.

Lemma Forall_consText (P : Token -> Prop) c ts :
  (forall t, P (Text t)) -> Forall P ts -> Forall P (consText c ts).
Proof.
  intros HP H. destruct H as [|[t|u] ts ? ?]; simpl; repeat constructor; auto.
Qed.

Lemma tokens_urls s :
  Forall (fun t => match t with Url u => isUrlToken u | Text _ => True end) (tokens s).
Proof.
  remember (length s) as n eqn:Hn. revert s Hn.
  induction n as [n IH] using lt_wf_ind. intros [|c s] Hn; [constructor|].
  destruct (matchUrlAt (c :: s)) as [[|k]|] eqn:M.
  - by apply matchUrlAt_not_zero in M.
  - rewrite (tokens_match _ _ M).
    pose proof (matchUrlAt_Some _ _ M) as (_ & _ & Hle & _).
    constructor.
    + unfold isUrlToken. rewrite length_take_le by done. by apply matchUrlAt_take.
    + apply (IH (length (drop (S k) (c :: s)))); [|done].
      rewrite length_drop. subst n. simpl in *. lia.
  - rewrite tokens_nomatch by done. apply Forall_consText; [done|].
    apply (IH (length s)); [subst n; simpl; lia|done].
Qed.

(** What the pattern matches is a URL, and it matches wherever a URL
    begins. *)
Lemma runLength_all f s :
  runLength f s = length s -> Forall (fun c => f c = true) s.
Proof.
  induction s as [|c s IH]; simpl; [constructor|].
  destruct (f c) eqn:E; [|discriminate]. intros [= H]. constructor; auto.
Qed.

Lemma urlTail_full r :
  urlTail r = Some (length r) ->
  exists body,
    r = js "://" ++ body /\ body <> [] /\
    Forall (fun c => isWhiteSpace c = false) body.
Proof.
  unfold urlTail. destruct (stripPrefix (js "://") r) as [t|] eqn:E; [|discriminate].
  apply stripPrefix_Some in E. subst r.
  destruct (runLength (fun c => negb (isWhiteSpace c)) t) as [|m] eqn:R; [discriminate|].
  intros [= H]. exists t. split; [done|]. split; [by destruct t|].
  assert (runLength (fun c => negb (isWhiteSpace c)) t = length t) as Hall
    by (rewrite R; simpl in H; lia).
  apply runLength_all in Hall. eapply Forall_impl; [exact Hall|].
  intros c Hc. by apply negb_true_iff.
Qed.

Lemma urlTail_s r' : urlTail (115%N :: r') = None.
Proof. reflexivity. Qed.

Lemma isUrlToken_isUrl u : isUrlToken u -> isUrl u.
Proof.
  unfold isUrlToken, matchUrlAt.
  destruct (stripPrefix (js "http") u) as [r|] eqn:E; [|discriminate].
  apply stripPrefix_Some in E. subst u.
  assert (Hw : option_map (fun n => 4 + n) (urlTail r) = Some (length (js "http" ++ r)) ->
               isUrl (js "http" ++ r)).
  { destruct (urlTail r) as [j|] eqn:K; [|discriminate]. intros [= H].
    assert (j = length r) as -> by lia.
    apply urlTail_full in K as (body & -> & Hne & Hall).
    exists (js "http://"), body. split; [by left|]. by split. }
  destruct r as [|c r']; [exact Hw|].
  destruct (N.eqb_spec c 115) as [->|Hc]; [|exact Hw].
  destruct (urlTail r') as [j|] eqn:K.
  - intros [= H]. assert (j = length r') as -> by (simpl in H; lia).
    apply urlTail_full in K as (body & -> & Hne & Hall).
    exists (js "https://"), body. split; [by right|]. by split.
  - by rewrite urlTail_s.
Qed.

Lemma urlTail_literal c rest :
  isWhiteSpace c = false -> exists n, urlTail (js "://" ++ c :: rest) = Some n.
Proof.
  intros Hc. unfold urlTail. rewrite stripPrefix_app. cbn [runLength].
  rewrite Hc. simpl negb. cbv iota. eauto.
Qed.

Lemma startsUrl_match s : startsUrl s -> matchUrlAt s <> None.
Proof.
  intros (scheme & c & rest & [->| ->] & -> & Hc);
    destruct (urlTail_literal c rest Hc) as [n Hn]; unfold matchUrlAt.
  - change (js "http://" ++ c :: rest) with (js "http" ++ js "://" ++ c :: rest).
    rewrite stripPrefix_app, Hn.
    change (js "://" ++ c :: rest) with (58%N :: 47%N :: 47%N :: c :: rest).
    cbv beta iota zeta. change (58 =? 115)%N with false. by cbv iota.
  - change (js "https://" ++ c :: rest)
      with (js "http" ++ 115%N :: js "://" ++ c :: rest).
    rewrite stripPrefix_app. cbv beta iota zeta.
    change (115 =? 115)%N with true. cbv iota. by rewrite Hn.
Qed.

Lemma tokens_wellTokenized s : wellTokenized (tokens s).
Proof.
  remember (length s) as n eqn:Hn. revert s Hn.
  induction n as [n IH] using lt_wf_ind. intros [|c s] Hn; [done|].
  destruct (matchUrlAt (c :: s)) as [[|k]|] eqn:M.
  - by apply matchUrlAt_not_zero in M.
  - rewrite (tokens_match _ _ M).
    pose proof (matchUrlAt_Some _ _ M) as (_ & _ & Hle & Hend).
    cbn [wellTokenized]. rewrite tokens_concat.
    split; [split; [|exact Hend]|].
    + apply isUrlToken_isUrl. unfold isUrlToken.
      rewrite length_take_le by done. by apply matchUrlAt_take.
    + apply (IH (length (drop (S k) (c :: s)))); [|done].
      rewrite length_drop. subst n. simpl in *. lia.
  - rewrite tokens_nomatch by done.
    assert (Hhere : ~ startsUrl (c :: s)).
    { intros Hs. by apply startsUrl_match in Hs. }
    pose proof (IH (length s) ltac:(subst n; simpl; lia) s eq_refl) as Hrest.
    pose proof (tokens_concat s) as Hs.
    destruct (tokens s) as [|[x|u] after]; simpl in Hs; subst s.
    + simpl. split; [|done]. split; [done|].
      intros i Hi. by replace i with 0 by lia.
    + destruct Hrest as [[Hx Hin] Hafter]. cbn [consText wellTokenized].
      split; [|done]. split; [done|].
      intros [|i] Hi; [done|]. simpl. apply Hin. simpl in Hi. lia.
    + cbn [consText wellTokenized]. split; [|exact Hrest]. split; [done|].
      intros i Hi. simpl in Hi. by replace i with 0 by lia.
Qed.

(** C7, as the claim states it, fails: the threshold is on the length of
    the URL in code units.  A message that is one URL of 24 characters and
    28 code units is counted as 27, not as its 24 characters. *)
Lemma calculateMessageLength_character_threshold_fails :
  ~ (forall message u,
       tokens message = [Url u] -> cpLength u <= 27 ->
       calculateMessageLength message = cpLength u).
Proof.
  intros H. specialize (H astralUrl astralUrl eq_refl).
  assert (cpLength astralUrl <= 27) as Hle by (vm_compute; lia).
  specialize (H Hle). vm_compute in H. discriminate H.
Qed.

(** C7. For every message, the tokens of the scan are a partition of the
    message into its URLs and the text between them: every URL token is
    [http://] or [https://] followed by one or more code units that are
    not white space and ends at white space or at the end of the message,
    and no URL begins anywhere in a text token.  [calculateMessageLength]
    is the sum over the tokens: a URL token whose [length] (in code units)
    exceeds 27 contributes exactly 27, a URL token of [length] 27 or less
    its number of code points, and text its number of code points.  Code
    points are counted so: a high surrogate followed by a low surrogate is
    one, any other code unit is one.  The last part is a message with a
    character outside the basic plane, an accented letter, a URL of 70
    code units and one of 14. *)
Theorem calculateMessageLength_counts_code_points (message : jsstring) :
  concat (tokenText <$> tokens message) = message /\
  wellTokenized (tokens message) /\
  calculateMessageLength message =
  sum_list_with (fun t => match t with
                          | Url u => if 27 <? length u then 27 else cpLength u
                          | Text x => cpLength x
                          end) (tokens message) /\
  (cpLength [] = 0 /\
   (forall h l s,
      (55296 <= h <= 56319)%N -> (56320 <= l <= 57343)%N ->
      cpLength (h :: l :: s) = S (cpLength s)) /\
   (forall c s,
      ~ ((55296 <= c <= 56319)%N /\
         exists l r, s = l :: r /\ (56320 <= l <= 57343)%N) ->
      cpLength (c :: s) = S (cpLength s))) /\
  (tokens mixedMessage =
   [ Text (js "Hi " ++ [55356; 57101]%N ++ js " caf" ++ [233]%N ++ js ": ");
     Url (js "https://example.com/very/long/path/that/should/be/truncated/because/it");
     Text (js " and ");
     Url (js "http://foo.bar") ] /\
   length mixedMessage = 101 /\
   calculateMessageLength mixedMessage = 11 + 27 + 5 + 14).
Proof.
  split; [apply tokens_concat|].
  split; [apply tokens_wellTokenized|].
  split; [apply calculateMessageLength_tokens|].
  split; [|by vm_compute].
  split; [done|]. split.
  - intros h l s [Hh1 Hh2] [Hl1 Hl2]. rewrite cpLength_cons.
    assert (isHighSurrogate h && startsLow (l :: s) = true) as ->; [|].
    { unfold isHighSurrogate, startsLow, isLowSurrogate.
      rewrite !andb_true_iff, !N.leb_le. lia. }
    rewrite cpLength_cons.
    assert (isHighSurrogate l = false) as ->; [|done].
    apply low_not_high. unfold isLowSurrogate.
    rewrite andb_true_iff, !N.leb_le. lia.
  - intros c s Hno. rewrite cpLength_cons.
    destruct (isHighSurrogate c && startsLow s) eqn:E; [|done].
    exfalso. apply Hno. apply andb_true_iff in E as [Hc Hs].
    unfold isHighSurrogate in Hc. apply andb_true_iff in Hc as [H1 H2].
    apply N.leb_le in H1, H2. split; [lia|].
    destruct s as [|l r]; [discriminate|]. exists l, r. split; [done|].
    simpl in Hs. unfold isLowSurrogate in Hs. apply andb_true_iff in Hs as [H3 H4].
    apply N.leb_le in H3, H4. lia.
Qed.

Lemma calculateMessageLength_counts_code_points_witness :
  wellTokenized (tokens mixedMessage) /\
  calculateMessageLength mixedMessage = 57 /\
  cpLength [55356; 57101; 233]%N = 2.
Proof.
  destruct (calculateMessageLength_counts_code_points mixedMessage)
    as (_ & Hw & _ & (_ & Hpair & Hone) & (_ & _ & Hn)).
  split; [exact Hw|]. split; [exact Hn|].
  rewrite Hpair by lia. rewrite Hone; [done|].
  intros [H _]. lia.
Defined.

(** ** [getUrlFromResponse] *)

Lemma split_spec sep s :
  exists part parts,
    split sep s = part :: parts /\ (sep ∉ part) /\
    (parts = [] -> s = part) /\
    (parts <> [] ->
     exists pre r, last parts = Some r /\ s = pre ++ sep :: r /\ (sep ∉ r)).
Proof.
  induction s as [|c s (part & parts & Hs & Hpart & Hone & Hmore)]; simpl.
  - exists [], []. repeat split; [apply not_elem_of_nil|done].
  - rewrite Hs. destruct (N.eqb_spec c sep) as [->|Hc].
    + exists [], (part :: parts).
      split; [done|]. split; [apply not_elem_of_nil|]. split; [done|].
      intros _. destruct parts as [|p parts].
      * exists [], part. rewrite (Hone eq_refl). by repeat split.
      * destruct Hmore as (pre & r & Hl & -> & Hr); [done|].
        exists (sep :: pre), r. by repeat split.
    + exists (c :: part), parts. split; [done|].
      split; [rewrite not_elem_of_cons; by split|].
      split.
      * intros Hp. by rewrite (Hone Hp).
      * intros Hp. destruct (Hmore Hp) as (pre & r & Hl & -> & Hr).
        exists (c :: pre), r. by repeat split.
Qed.

(** The last element of [s.split("/")] is what follows the last ["/"] of
    [s], or [s] itself when it has none. *)
Lemma split_last sep s :
  exists r, last (split sep s) = Some r /\ (sep ∉ r) /\
            (s = r \/ exists pre, s = pre ++ sep :: r).
Proof.
  destruct (split_spec sep s) as (part & parts & Hs & Hpart & Hone & Hmore).
  rewrite Hs. destruct parts as [|p parts].
  - exists part. split; [done|]. split; [done|]. left. by apply Hone.
  - destruct Hmore as (pre & r & Hl & -> & Hr); [done|].
    exists r. split; [exact Hl|]. split; [done|]. right. by exists pre.
Qed.

Lemma newBlueskyStrategy_Return opts self :
  newBlueskyStrategy opts = Return self ->
  options self = opts /\ truthy (identifier opts) = true /\
  truthy (password opts) = true /\ truthy (host opts) = true.
Proof.
  unfold newBlueskyStrategy.
  destruct (truthy (identifier opts)); [|discriminate].
  destruct (truthy (password opts)); [|discriminate].
  destruct (truthy (host opts)); [|discriminate].
  simpl. intros [= <-]. done.
Qed.

Lemma truthy_Some v : truthy v = true -> exists c s, v = Some (c :: s).
Proof. destruct v as [[|c s]|]; try discriminate. eauto. Qed.

(** C9, as the claim states it, fails: a response whose [uri] is the empty
    string has a [uri], and [getUrlFromResponse] throws for it. *)
Lemma getUrlFromResponse_empty_uri_throws :
  ~ (forall (self : BlueskyStrategy) (response : Json) (u : jsstring),
       j_uri response = Some u ->
       exists recordId,
         getUrlFromResponse self (Some response) =
         Return (js "https://bsky.app/profile/" ++ str (identifier (options self))
                 ++ js "/post/" ++ recordId)).
Proof.
  intros H.
  destruct (H testStrategy
              {| j_did := None; j_accessJwt := None; j_blob := None;
                 j_uri := Some []; j_cid := None; j_error := None;
                 j_message := None |} [] eq_refl) as (recordId & Hr).
  vm_compute in Hr. discriminate.
Qed.

(** C9 (amended). For a strategy built by the constructor from [opts]:
    a response that is null or undefined, has no [uri], or has the empty
    string as [uri] makes [getUrlFromResponse] throw "Post URI not found
    in response"; a response with a non-empty [uri] yields
    [https://bsky.app/profile/<identifier>/post/<r>], where [<identifier>]
    is the identifier given at construction and [<r>] is what follows the
    last ["/"] of the [uri] (the whole [uri] when it has none); the result
    does not depend on the configured host. *)
Theorem getUrlFromResponse_spec (opts : BlueskyOptions) (self : BlueskyStrategy)
    (response : option Json) :
  newBlueskyStrategy opts = Return self ->
  ((response = None \/
    exists r, response = Some r /\ (j_uri r = None \/ j_uri r = Some [])) ->
   getUrlFromResponse self response =
   Throw (Error (js "Post URI not found in response"))) /\
  (forall r c u,
     response = Some r -> j_uri r = Some (c :: u) ->
     exists ident recordId,
       identifier opts = Some ident /\
       getUrlFromResponse self response =
       Return (js "https://bsky.app/profile/" ++ ident ++ js "/post/" ++ recordId) /\
       (47%N ∉ recordId) /\
       (c :: u = recordId \/ exists pre, c :: u = pre ++ 47%N :: recordId)) /\
  (forall otherHost,
     getUrlFromResponse
       {| MAX_MESSAGE_LENGTH := MAX_MESSAGE_LENGTH self;
          strategyId := strategyId self; strategyName := strategyName self;
          options := {| identifier := identifier opts; password := password opts;
                        host := otherHost |} |} response =
     getUrlFromResponse self response).
Proof.
  intros Hnew. apply newBlueskyStrategy_Return in Hnew as (Hopts & Hid & _ & _).
  split; [|split].
  - intros [->|(r & -> & [Hr|Hr])]; unfold getUrlFromResponse; by rewrite ?Hr.
  - intros r c u -> Hu.
    apply truthy_Some in Hid as (ic & ident & Hident).
    destruct (split_last 47 (c :: u)) as (recordId & Hlast & Hno & Hshape).
    exists (ic :: ident), recordId. split; [done|].
    unfold getUrlFromResponse. rewrite Hu, Hopts, Hident.
    cbn [truthy negb str]. by rewrite Hlast.
  - intros otherHost. unfold getUrlFromResponse. by rewrite Hopts.
Qed.

Lemma getUrlFromResponse_spec_witness :
  newBlueskyStrategy testOptions = Return testStrategy /\
  exists ident recordId,
    identifier testOptions = Some ident /\
    getUrlFromResponse testStrategy (Some CREATE_RECORD_RESPONSE) =
    Return (js "https://bsky.app/profile/" ++ ident ++ js "/post/" ++ recordId).
Proof.
  split; [reflexivity|].
  destruct (getUrlFromResponse_spec testOptions testStrategy
              (Some CREATE_RECORD_RESPONSE) eq_refl) as (_ & H & _).
  destruct (H CREATE_RECORD_RESPONSE 97%N
              (js "t://did:plc:abcxyz/app.bsky.feed.post/abcxyz") eq_refl eq_refl)
    as (ident & recordId & Hi & Hr & _).
  exists ident, recordId. split; [exact Hi|exact Hr].
Defined.

(** ** Computations over the world *)

Lemma bind_Return {A B} (m : M A) (k : A -> M B) w a w' :
  m w = (Return a, w') -> bind m k w = k a w'.
Proof. intros H. unfold bind. by rewrite H. Qed.

Lemma bind_Throw {A B} (m : M A) (k : A -> M B) w e w' :
  m w = (Throw e, w') -> bind m k w = (Throw e, w').
Proof. intros H. unfold bind. by rewrite H. Qed.

Lemma forOf_app {A S} (l1 l2 : list A) (body : A -> S -> M S) s w :
  forOf (l1 ++ l2) body s w = bind (forOf l1 body s) (forOf l2 body) w.
Proof.
  revert s w. induction l1 as [|x l1 IH]; intros s w; simpl; [done|].
  unfold bind in *. destruct (body x s w) as [[s'|e] w']; [|done].
  apply IH.
Qed.

Lemma resolveMentionFacets_unfold P options facets signal :
  resolveMentionFacets P options facets signal =
  forOf facets (resolveFacet P options signal) [].
Proof. reflexivity. Qed.

(** *** Calls carry the signal, and an aborted signal ends the run *)

Lemma Cancels_quiet {A} signal k (m : M A) :
  (forall w, snd (m w) = w) -> Cancels signal k m.
Proof.
  intros H w. exists []. rewrite app_nil_r. split; [apply H|]. by split.
Qed.

Lemma Cancels_bind {A B} signal k (m : M A) (f : A -> M B) :
  Cancels signal k m -> (forall a, Cancels signal k (f a)) ->
  Cancels signal k (bind m f).
Proof.
  intros Hm Hf w. destruct (Hm w) as (calls1 & Hw1 & Hs1 & Ha1).
  unfold bind. destruct (m w) as [[a|e] w1] eqn:E; simpl in *; subst w1.
  - destruct (Hf a (w ++ calls1)) as (calls2 & Hw2 & Hs2 & Ha2).
    exists (calls1 ++ calls2). rewrite app_assoc.
    split; [done|]. split; [apply Forall_app; by split|].
    intros Hfire Hne Hk. destruct calls2 as [|c calls2].
    + rewrite app_nil_r in *. by discriminate (Ha1 Hfire Hne Hk).
    + by apply Ha2.
  - exists calls1. split; [done|]. split; [done|].
    intros Hfire Hne Hk. by injection (Ha1 Hfire Hne Hk) as ->.
Qed.

Lemma fetch_aborted P c k w :
  firesDuring (callSignal c) k -> k <= length w ->
  fetch P c w = (Throw AbortError, w ++ [c]).
Proof.
  intros (s & Hs & Hk) Hle. unfold fetch, aborted. rewrite Hs.
  destruct s as [f]. simpl in Hk. subst f.
  by destruct (Nat.leb_spec k (length w)); [|lia].
Qed.

Lemma fetch_calls P c w : snd (fetch P c w) = w ++ [c].
Proof.
  unfold fetch. destruct (aborted (callSignal c) (length w)); [done|].
  by destruct (server P (length w) c).
Qed.

Lemma Cancels_fetch P signal k c :
  callSignal c = signal -> Cancels signal k (fetch P c).
Proof.
  intros Hc w. exists [c]. split; [apply fetch_calls|]. split; [auto|].
  intros Hfire _ Hk. rewrite <- Hc in Hfire.
  rewrite (fetch_aborted P c k w Hfire); [done|].
  rewrite length_app in Hk. simpl in Hk. lia.
Qed.

Lemma Cancels_forOf {A S} signal k (l : list A) (body : A -> S -> M S) s :
  (forall x s, Cancels signal k (body x s)) -> Cancels signal k (forOf l body s).
Proof.
  intros Hb. revert s. induction l as [|x l IH]; intros s; simpl.
  - by apply Cancels_quiet.
  - apply Cancels_bind; auto.
Qed.

Lemma Cancels_readJson signal k r : Cancels signal k (readJson r).
Proof. apply Cancels_quiet. intros w. unfold readJson. by destruct (json r). Qed.

(** The shape shared by the four requests of the strategy: [fetch], then
    the body of an [ok] response, or an [Error] built from the body. *)
Lemma Cancels_request {A} P signal k c (onOk : Response -> M A) what :
  callSignal c = signal ->
  (forall r, Cancels signal k (onOk r)) ->
  Cancels signal k
    (let! response := fetch P c in
     if ok response
     then onOk response
     else let! errorBody := readJson response in
          throw (Error (failureMessage response what errorBody))).
Proof.
  intros Hc Hok. apply Cancels_bind; [by apply Cancels_fetch|].
  intros r. destruct (ok r); [done|].
  apply Cancels_bind; [apply Cancels_readJson|].
  intros j. by apply Cancels_quiet.
Qed.

Lemma Cancels_resolveHandle P options handle signal k :
  Cancels signal k (resolveHandle P options handle signal).
Proof.
  unfold resolveHandle. apply Cancels_request; [done|].
  intros r. apply Cancels_bind; [apply Cancels_readJson|].
  intros j. by apply Cancels_quiet.
Qed.

Lemma Cancels_createSession P options signal k :
  Cancels signal k (createSession P options signal).
Proof.
  unfold createSession. apply Cancels_request; [done|].
  intros r. apply Cancels_readJson.
Qed.

Lemma Cancels_uploadImage P options session imageData signal k :
  Cancels signal k (uploadImage P options session imageData signal).
Proof.
  unfold uploadImage. apply Cancels_request; [done|].
  intros r. apply Cancels_readJson.
Qed.

(** *** Resolving mentions never throws *)

Lemma Resolves_ret {A} signal (a : A) : Resolves signal (ret a).
Proof. intros w. exists a, []. by rewrite app_nil_r. Qed.

Lemma Resolves_bind {A B} signal (m : M A) (f : A -> M B) :
  Resolves signal m -> (forall a, Resolves signal (f a)) ->
  Resolves signal (bind m f).
Proof.
  intros Hm Hf w. destruct (Hm w) as (a & calls1 & E & Hs1).
  destruct (Hf a (w ++ calls1)) as (b & calls2 & E2 & Hs2).
  exists b, (calls1 ++ calls2). rewrite (bind_Return _ _ _ _ _ E), E2, app_assoc.
  split; [done|]. apply Forall_app; by split.
Qed.

Lemma Resolves_forOf {A S} signal (l : list A) (body : A -> S -> M S) s :
  (forall x s, Resolves signal (body x s)) -> Resolves signal (forOf l body s).
Proof.
  intros Hb. revert s. induction l as [|x l IH]; intros s; simpl.
  - apply Resolves_ret.
  - apply Resolves_bind; auto.
Qed.

Lemma Resolves_tryCatch {A} signal k (m : M A) (a : A) :
  Cancels signal k m -> Resolves signal (tryCatch m (fun _ => ret a)).
Proof.
  intros Hm w. destruct (Hm w) as (calls & Hw & Hs & _).
  unfold tryCatch. destruct (m w) as [[x|e] w']; simpl in Hw; subst w'.
  - by exists x, calls.
  - by exists a, calls.
Qed.

Lemma Resolves_resolveFeature P options signal feature acc :
  Resolves signal (resolveFeature P options signal feature acc).
Proof.
  unfold resolveFeature. destruct (isMention feature); [|apply Resolves_ret].
  apply (Resolves_tryCatch _ 0).
  apply Cancels_bind; [apply Cancels_resolveHandle|].
  intros d. by apply Cancels_quiet.
Qed.

Lemma Resolves_resolveFacet P options signal facet acc :
  Resolves signal (resolveFacet P options signal facet acc).
Proof.
  unfold resolveFacet. apply Resolves_bind.
  - apply Resolves_forOf. intros; apply Resolves_resolveFeature.
  - intros fs. destruct (0 <? length fs); apply Resolves_ret.
Qed.

Lemma Resolves_resolveMentionFacets P options facets signal :
  Resolves signal (resolveMentionFacets P options facets signal).
Proof.
  rewrite resolveMentionFacets_unfold. apply Resolves_forOf.
  intros; apply Resolves_resolveFacet.
Qed.

(** *** The whole of [post] *)

Lemma postMessage_unfold P options session message postOptions :
  postMessage P options session message postOptions =
  bind (resolveMentionFacets P options (facets (detectFacets message))
          (signalOf postOptions))
       (submit P options session (text (detectFacets message)) postOptions).
Proof. reflexivity. Qed.

Lemma Cancels_submit P options session truncated postOptions facets k :
  Cancels (signalOf postOptions) k
          (submit P options session truncated postOptions facets).
Proof.
  unfold submit. apply Cancels_bind; [by apply Cancels_quiet|]. intros createdAt.
  apply Cancels_bind.
  - apply Cancels_forOf. intros image images.
    apply Cancels_bind; [apply Cancels_uploadImage|]. intros result.
    apply Cancels_bind; [by apply Cancels_quiet|]. intros dimensions.
    by apply Cancels_quiet.
  - intros images. apply Cancels_request; [done|].
    intros r. apply Cancels_readJson.
Qed.

Lemma AbortsWhenFired_bind {A B} k (m : M A) (f : A -> M B) :
  AbortsWhenFired k m -> AbortsWhenFired k (bind m f).
Proof.
  intros Hm w Hk. specialize (Hm w Hk). unfold bind.
  destruct (m w) as [[a|e] w']; simpl in *; congruence.
Qed.

Lemma AbortsWhenFired_after {A B} k (m : M A) (f : A -> M B) :
  (forall w, exists a, m w = (Return a, w)) ->
  (forall a, AbortsWhenFired k (f a)) -> AbortsWhenFired k (bind m f).
Proof.
  intros Hm Hf w Hk. destruct (Hm w) as (a & E).
  rewrite (bind_Return _ _ _ _ _ E). by apply Hf.
Qed.

Lemma AbortsWhenFired_fetch P c k :
  firesDuring (callSignal c) k -> AbortsWhenFired k (fetch P c).
Proof. intros Hfire w Hk. by rewrite (fetch_aborted P c k w). Qed.

Lemma AbortsWhenFired_submit P options session truncated postOptions facets k :
  firesDuring (signalOf postOptions) k ->
  AbortsWhenFired k (submit P options session truncated postOptions facets).
Proof.
  intros Hfire. unfold submit.
  apply AbortsWhenFired_after; [intros w; by eexists|]. intros createdAt.
  destruct (imagesOf postOptions) as [|image images]; simpl forOf.
  - apply AbortsWhenFired_after; [intros w; by eexists|]. intros images.
    apply AbortsWhenFired_bind. by apply AbortsWhenFired_fetch.
  - do 3 apply AbortsWhenFired_bind. unfold uploadImage.
    apply AbortsWhenFired_bind. by apply AbortsWhenFired_fetch.
Qed.

Lemma Cancels_after_Resolves {A B} signal k (m : M A) (f : A -> M B) :
  Resolves signal m ->
  (forall a, Cancels signal k (f a)) ->
  (firesDuring signal k -> forall a, AbortsWhenFired k (f a)) ->
  Cancels signal k (bind m f).
Proof.
  intros Hm Hf Hab w. destruct (Hm w) as (a & calls1 & E & Hs1).
  destruct (Hf a (w ++ calls1)) as (calls2 & Hw2 & Hs2 & Ha2).
  exists (calls1 ++ calls2). rewrite (bind_Return _ _ _ _ _ E), app_assoc.
  split; [done|]. split; [apply Forall_app; by split|].
  intros Hfire Hne Hk.
  destruct (Nat.le_gt_cases k (length (w ++ calls1))) as [Hle|Hgt].
  - by apply Hab.
  - apply Ha2; [done| |done]. intros ->. rewrite app_nil_r in Hk. lia.
Qed.

Lemma Cancels_postMessage P options session message postOptions k :
  Cancels (signalOf postOptions) k
          (postMessage P options session message postOptions).
Proof.
  rewrite postMessage_unfold. apply Cancels_after_Resolves.
  - apply Resolves_resolveMentionFacets.
  - intros fs. apply Cancels_submit.
  - intros Hfire fs. by apply AbortsWhenFired_submit.
Qed.

Lemma Cancels_post P self message postOptions k :
  Cancels (signalOf postOptions) k (post P self message postOptions).
Proof.
  unfold post. destruct (negb (truthy message)); [by apply Cancels_quiet|].
  apply Cancels_bind; [by apply Cancels_quiet|]. intros _.
  apply Cancels_bind; [apply Cancels_createSession|]. intros session.
  apply Cancels_postMessage.
Qed.


(** C6. When the caller supplies a signal, every [fetch] call [post] makes
    (session creation, each mention lookup, each blob upload, record
    creation) carries that signal; and when the signal fires while the call
    number [k] is in flight, a run that reaches that call rejects with an
    [AbortError], also when the call is a mention lookup, whose rejection
    [resolveMentionFacets] swallows: the next call rejects then.  The run
    always ends and returns no partial result. *)
Theorem post_cancellation (P : Platform) (self : BlueskyStrategy)
    (message : option jsstring) (postOptions : option PostOptions)
    (signal : AbortSignal) (k : nat) (w : World) :
  signalOf postOptions = Some signal ->
  firesAt signal = Some k ->
  exists calls,
    snd (post P self message postOptions w) = w ++ calls /\
    Forall (fun c => callSignal c = Some signal) calls /\
    (calls <> [] -> k < length (w ++ calls) ->
     fst (post P self message postOptions w) = Throw AbortError).
Proof.
  intros Hs Hk.
  destruct (Cancels_post P self message postOptions k w) as (calls & Hw & Hc & Ha).
  exists calls. rewrite Hs in Hc. split; [done|]. split; [done|].
  apply Ha. exists signal. by split.
Qed.

(** The signal fires during the first mention lookup. *)
Lemma post_cancellation_witness :
  fst (post (mockPlatform aliceAndBob) testStrategy
         (Some (js "Hello @alice and @bob.example.com!"))
         (Some {| images := ImagesAbsent; signal := Some {| firesAt := Some 1 |} |})
         []) = Throw AbortError.
Proof.
  destruct (post_cancellation (mockPlatform aliceAndBob) testStrategy
              (Some (js "Hello @alice and @bob.example.com!"))
              (Some {| images := ImagesAbsent; signal := Some {| firesAt := Some 1 |} |})
              {| firesAt := Some 1 |} 1 [] eq_refl eq_refl)
    as (calls & Hw & _ & Ha).
  apply Ha.
  - intros ->. vm_compute in Hw. discriminate.
  - rewrite <- Hw. vm_compute. lia.
Defined.

(** ** Validation *)

Lemma validateImages_invalid l image :
  image ∈ l -> (forall bytes, data image <> DataBytes bytes) ->
  exists msg, validateImages l = Throw (TypeError msg) /\
              (msg = js "Image must have data." \/
               msg = js "Image data must be a Uint8Array.").
Proof.
  intros Hin Hdata. induction l as [|x l IH]; [by apply elem_of_nil in Hin|].
  simpl. unfold validateImage at 1.
  destruct (data x) as [| |bytes] eqn:Hx; [eauto..|].
  apply elem_of_cons in Hin as [->|Hin]; [|by apply IH].
  by destruct (Hdata bytes).
Qed.

(** C8. Validation comes before any network call, and the error names the
    bad input.  The constructor, which calls nothing, throws a [TypeError]
    naming the first of identifier, password and host that is missing
    (undefined or empty).  [post] with a missing or empty message, or with
    an image whose [data] is not a [Uint8Array], throws a [TypeError] and
    leaves the history of [fetch] calls as it was. *)
Theorem validation_precedes_network (P : Platform) (opts : BlueskyOptions)
    (self : BlueskyStrategy) (message : option jsstring)
    (postOptions : option PostOptions) (w : World) :
  (truthy (identifier opts) = false ->
   lift (newBlueskyStrategy opts) w = (Throw (TypeError (js "Missing identifier.")), w)) /\
  (truthy (identifier opts) = true -> truthy (password opts) = false ->
   lift (newBlueskyStrategy opts) w = (Throw (TypeError (js "Missing password.")), w)) /\
  (truthy (identifier opts) = true -> truthy (password opts) = true ->
   truthy (host opts) = false ->
   lift (newBlueskyStrategy opts) w = (Throw (TypeError (js "Missing host.")), w)) /\
  (truthy message = false ->
   post P self message postOptions w =
   (Throw (TypeError (js "Missing message to post.")), w)) /\
  (forall o l image,
     truthy message = true ->
     postOptions = Some o -> images o = ImagesArray l -> image ∈ l ->
     (forall bytes, data image <> DataBytes bytes) ->
     exists msg,
       post P self message postOptions w = (Throw (TypeError msg), w) /\
       (msg = js "Image must have data." \/
        msg = js "Image data must be a Uint8Array.")).
Proof.
  unfold lift, newBlueskyStrategy.
  split; [by intros ->|]. split; [by intros -> ->|]. split; [by intros -> -> ->|].
  split.
  - intros Hm. unfold post. by rewrite Hm.
  - intros o l image Hm -> Hl Hin Hdata.
    destruct (validateImages_invalid l image Hin Hdata) as (msg & Hv & Hmsg).
    exists msg. split; [|done].
    unfold post. rewrite Hm. simpl negb. cbv iota.
    unfold bind, lift, validatePostOptions. by rewrite Hl, Hv.
Qed.

Lemma validation_precedes_network_witness :
  lift (newBlueskyStrategy
          {| identifier := None; password := Some (js "password"); host := Some HOST |}) []
  = (Throw (TypeError (js "Missing identifier.")), []) /\
  post (mockPlatform []) testStrategy None None []
  = (Throw (TypeError (js "Missing message to post.")), []) /\
  exists msg,
    post (mockPlatform []) testStrategy (Some (js "Hello world"))
      (Some {| images := ImagesArray [ {| data := DataMissing; alt := Some (js "test") |} ];
               signal := None |}) []
    = (Throw (TypeError msg), []).
Proof.
  pose proof (validation_precedes_network (mockPlatform [])
    {| identifier := None; password := Some (js "password"); host := Some HOST |}
    testStrategy None None []) as (H1 & _ & _ & H4 & _).
  split; [exact (H1 eq_refl)|]. split; [exact (H4 eq_refl)|].
  pose proof (validation_precedes_network (mockPlatform []) testOptions
    testStrategy (Some (js "Hello world"))
    (Some {| images := ImagesArray [ {| data := DataMissing; alt := Some (js "test") |} ];
             signal := None |}) []) as (_ & _ & _ & _ & H5).
  destruct (H5 _ _ {| data := DataMissing; alt := Some (js "test") |}
              eq_refl eq_refl eq_refl) as (msg & Hp & _).
  - apply list_elem_of_singleton. reflexivity.
  - intros bytes. discriminate.
  - exists msg. exact Hp.
Defined.

(** ** [post] and the maximum length *)

Lemma createSession_calls P options signal w :
  snd (createSession P options signal w) = w ++ [sessionCall options signal].
Proof.
  unfold createSession, bind.
  change (fetch P _ w) with (fetch P (sessionCall options signal) w).
  pose proof (fetch_calls P (sessionCall options signal) w) as Hc.
  destruct (fetch P (sessionCall options signal) w) as [[r|e] w']; simpl in *;
    subst w'; [|done].
  unfold readJson. destruct (ok r), (json r); reflexivity.
Qed.

Lemma post_valid P self message postOptions w :
  truthy message = true ->
  validatePostOptions postOptions = Return tt ->
  post P self message postOptions w =
  bind (createSession P (options self) (signalOf postOptions))
       (fun session =>
          postMessage P (options self) session (str message) postOptions) w.
Proof.
  intros Hm Hv. unfold post. rewrite Hm. simpl negb. cbv iota.
  unfold bind at 1. unfold lift. by rewrite Hv.
Qed.

Lemma post_first_call P self message postOptions w :
  truthy message = true ->
  validatePostOptions postOptions = Return tt ->
  exists rest,
    snd (post P self message postOptions w) =
    w ++ sessionCall (options self) (signalOf postOptions) :: rest.
Proof.
  intros Hm Hv. rewrite post_valid by done.
  pose proof (createSession_calls P (options self) (signalOf postOptions) w) as Hc.
  unfold bind.
  destruct (createSession P (options self) (signalOf postOptions) w)
    as [[session|e] w1]; simpl in Hc; subst w1.
  - destruct (Cancels_postMessage P (options self) session (str message)
                postOptions 0 (w ++ [sessionCall (options self) (signalOf postOptions)]))
      as (calls & Hw & _).
    exists calls. rewrite Hw. by rewrite <- app_assoc.
  - by exists [].
Qed.

Lemma submit_calls P options session truncated postOptions fs w :
  imagesOf postOptions = [] ->
  exists recordCall,
    snd (submit P options session truncated postOptions fs w) = w ++ [recordCall] /\
    url recordCall = getPostMessageUrl options /\
    submittedText recordCall = truncated /\
    submittedFacets recordCall = fs.
Proof.
  intros Hi. unfold submit. rewrite Hi. simpl forOf.
  unfold bind at 1. unfold currentTime at 1.
  unfold bind at 1. unfold ret at 1. unfold bind at 1.
  match goal with
  | |- context [fetch P ?c w] =>
      exists c; pose proof (fetch_calls P c w) as Hc;
      destruct (fetch P c w) as [[r|e] w']; simpl in Hc; subst w'
  end.
  - split; [|done]. unfold bind, readJson. by destruct (ok r), (json r).
  - done.
Qed.

(** C10. [post] does not look at the length of the message.  For every
    non-empty message and options that pass [validatePostOptions], [post]
    is session creation followed by [postMessage]: the session call is
    made, and when the session is created (and there are no images to
    upload first) the run ends with the call that submits the record, with
    the detector's text.  A rejection before any network call can only be
    the missing-message error or the error of [validatePostOptions]. *)
Theorem post_does_not_enforce_max_length (P : Platform) (self : BlueskyStrategy)
    (message : option jsstring) (postOptions : option PostOptions) (w : World) :
  (truthy message = true ->
   validatePostOptions postOptions = Return tt ->
   post P self message postOptions w =
   bind (createSession P (options self) (signalOf postOptions))
        (fun session =>
           postMessage P (options self) session (str message) postOptions) w /\
   (exists rest,
      snd (post P self message postOptions w) =
      w ++ sessionCall (options self) (signalOf postOptions) :: rest) /\
   (forall session w1,
      createSession P (options self) (signalOf postOptions) w = (Return session, w1) ->
      imagesOf postOptions = [] ->
      exists lookups recordCall,
        snd (post P self message postOptions w) = w1 ++ lookups ++ [recordCall] /\
        url recordCall = getPostMessageUrl (options self) /\
        submittedText recordCall = text (detectFacets (str message)))) /\
  (forall e,
     post P self message postOptions w = (Throw e, w) ->
     (truthy message = false /\ e = TypeError (js "Missing message to post.")) \/
     validatePostOptions postOptions = Throw e).
Proof.
  split.
  - intros Hm Hv. split; [by apply post_valid|]. split; [by apply post_first_call|].
    intros session w1 Hs Hi. rewrite post_valid by done.
    rewrite (bind_Return _ _ _ _ _ Hs), postMessage_unfold.
    destruct (Resolves_resolveMentionFacets P (options self)
                (facets (detectFacets (str message))) (signalOf postOptions) w1)
      as (fs & lookups & Hr & _).
    rewrite (bind_Return _ _ _ _ _ Hr).
    destruct (submit_calls P (options self) session
                (text (detectFacets (str message))) postOptions fs
                (w1 ++ lookups) Hi) as (recordCall & Hw & Hu & Ht & _).
    exists lookups, recordCall. rewrite Hw. by rewrite <- app_assoc.
  - intros e He. destruct (truthy message) eqn:Hm.
    + right. destruct (validatePostOptions postOptions) as [[]|e'] eqn:Hv.
      * destruct (post_first_call P self message postOptions w Hm Hv) as (rest & Hw).
        rewrite He in Hw. simpl in Hw.
        apply (f_equal length) in Hw. rewrite length_app in Hw. simpl in Hw. lia.
      * unfold post in He. rewrite Hm in He. simpl in He.
        unfold bind, lift in He. rewrite Hv in He. congruence.
    + left. split; [done|]. unfold post in He. rewrite Hm in He.
      simpl in He. unfold throw in He. congruence.
Qed.

(** A message of 301 characters, one more than [MAX_MESSAGE_LENGTH]. *)
Lemma post_does_not_enforce_max_length_witness :
  MAX_MESSAGE_LENGTH testStrategy < calculateMessageLength (repeat 97%N 301) /\
  exists rest,
    snd (post (mockPlatform []) testStrategy (Some (repeat 97%N 301)) None []) =
    [] ++ sessionCall testOptions None :: rest.
Proof.
  split; [vm_compute; lia|].
  destruct (post_does_not_enforce_max_length (mockPlatform []) testStrategy
              (Some (repeat 97%N 301)) None []) as (H & _).
  destruct (H eq_refl eq_refl) as (_ & Hfirst & _). exact Hfirst.
Defined.

Example post_long_message_succeeds :
  fst (post (mockPlatform []) testStrategy (Some (repeat 97%N 301)) None []) =
  Return CREATE_RECORD_RESPONSE.
Proof. vm_compute. reflexivity. Qed.

(** ** [resolveMentionFacets] *)

Lemma prepend_prepend {A} (a b : list A) r :
  prepend a (prepend b r) = prepend (a ++ b) r.
Proof. destruct r as [[out|e] w]; simpl; [|done]. by rewrite app_assoc. Qed.

Lemma resolveFacet_prepend P options signal facet acc w :
  resolveFacet P options signal facet acc w =
  prepend acc (resolveFacet P options signal facet [] w).
Proof.
  unfold resolveFacet, bind.
  destruct (forOf (features facet) (resolveFeature P options signal) [] w)
    as [[fs|e] w']; [|done].
  destruct (0 <? length fs); unfold ret, prepend; [done|].
  by rewrite app_nil_r.
Qed.

Lemma resolveFacets_prepend P options signal facets acc w :
  forOf facets (resolveFacet P options signal) acc w =
  prepend acc (forOf facets (resolveFacet P options signal) [] w).
Proof.
  revert acc w. induction facets as [|facet facets IH]; intros acc w; simpl.
  - unfold ret, prepend. by rewrite app_nil_r.
  - destruct (Resolves_resolveFacet P options signal facet [] w)
      as (a & calls & E & _).
    rewrite (bind_Return _ _ w (acc ++ a) (w ++ calls)).
    2:{ rewrite resolveFacet_prepend, E. done. }
    rewrite (bind_Return _ _ _ _ _ E).
    rewrite (IH (acc ++ a)), (IH a). by rewrite prepend_prepend.
Qed.

(** One facet more: the facets before it are resolved first, then the
    facet, then the facets after it. *)
Lemma resolveMentionFacets_cons P options signal facet facets w :
  resolveMentionFacets P options (facet :: facets) signal w =
  match resolveFacet P options signal facet [] w with
  | (Return a, w') => prepend a (resolveMentionFacets P options facets signal w')
  | (Throw e, w') => (Throw e, w')
  end.
Proof.
  rewrite !resolveMentionFacets_unfold. simpl forOf. unfold bind.
  destruct (resolveFacet P options signal facet [] w) as [[a|e] w']; [|done].
  apply resolveFacets_prepend.
Qed.

Lemma resolveMentionFacets_app P options signal before after w :
  resolveMentionFacets P options (before ++ after) signal w =
  match resolveMentionFacets P options before signal w with
  | (Return a, w') => prepend a (resolveMentionFacets P options after signal w')
  | (Throw e, w') => (Throw e, w')
  end.
Proof.
  rewrite !resolveMentionFacets_unfold, forOf_app. unfold bind.
  destruct (forOf before (resolveFacet P options signal) [] w) as [[a|e] w']; [|done].
  apply resolveFacets_prepend.
Qed.

(** A facet whose only feature is a mention: the facet is kept, with the
    resolved identifier, when the lookup succeeds, and dropped when the
    lookup throws. *)
Lemma resolveFacet_mention P options signal idx feature w :
  isMention feature = true ->
  resolveFacet P options signal (facetOf idx feature) [] w =
  match resolveHandle P options (did feature) signal w with
  | (Return d, w') => (Return [facetOf idx (withDid feature d)], w')
  | (Throw _, w') => (Return [], w')
  end.
Proof.
  intros Hm. unfold resolveFacet, facetOf. simpl features. simpl forOf.
  unfold bind at 1. unfold bind at 1. unfold resolveFeature. rewrite Hm.
  unfold tryCatch, bind.
  by destruct (resolveHandle P options (did feature) signal w) as [[d|e] w'].
Qed.

(** What one facet leaves in the output: nothing, or one facet with the
    same index. *)
Lemma resolveFacet_index P options signal facet w out w' :
  resolveFacet P options signal facet [] w = (Return out, w') ->
  out = [] \/ exists fs, out = [ {| index := index facet; features := fs |} ].
Proof.
  unfold resolveFacet, bind.
  destruct (forOf (features facet) (resolveFeature P options signal) [] w)
    as [[fs|e] w1]; [|discriminate].
  destruct (0 <? length fs); unfold ret; intros [= <- <-]; eauto.
Qed.

Lemma resolveMentionFacets_sublist P options signal facets w :
  exists out w',
    resolveMentionFacets P options facets signal w = (Return out, w') /\
    (index <$> out) `sublist_of` (index <$> facets).
Proof.
  revert w. induction facets as [|facet facets IH]; intros w.
  - exists [], w. split; [done|]. constructor.
  - rewrite resolveMentionFacets_cons.
    destruct (Resolves_resolveFacet P options signal facet [] w)
      as (a & calls & E & _).
    rewrite E. destruct (IH (w ++ calls)) as (out & w' & -> & Hsub).
    exists (a ++ out), w'. split; [done|].
    destruct (resolveFacet_index _ _ _ _ _ _ _ E) as [->|(fs & ->)]; simpl.
    + by apply sublist_cons.
    + by apply sublist_skip.
Qed.

Lemma StronglySorted_sublist {A} (R : relation A) (l1 l2 : list A) :
  l1 `sublist_of` l2 -> StronglySorted R l2 -> StronglySorted R l1.
Proof.
  induction 1 as [|x l1 l2 Hsub IH|x l1 l2 Hsub IH]; intros Hs; [done|..].
  - apply StronglySorted_inv in Hs as [Hs Hx]. constructor; [by apply IH|].
    rewrite Forall_forall in Hx |- *. intros y Hy. apply Hx.
    by apply (sublist_subseteq _ _ Hsub).
  - apply StronglySorted_inv in Hs as [Hs _]. by apply IH.
Qed.

#[local] Instance ascending_trans : Transitive ascending.
Proof. unfold ascending. intros a b c ? ?. lia. Qed.

Lemma Sorted_sublist_ascending (l1 l2 : list ByteSlice) :
  l1 `sublist_of` l2 -> Sorted ascending l2 -> Sorted ascending l1.
Proof.
  intros Hsub Hs. apply StronglySorted_Sorted.
  apply (StronglySorted_sublist _ _ _ Hsub).
  apply (sorting.Sorted_StronglySorted ascending). exact Hs.
Qed.

(** C5. [resolveMentionFacets] never throws.  In a facet list, a facet
    whose feature is a mention is resolved after the facets before it and
    before the facets after it; when its lookup throws (an error response,
    a network failure, an abort), that facet alone is missing from the
    output, and when it succeeds the facet is there with the resolved
    identifier.  For every facet list the indices of the output are a
    sublist of the indices of the input, so ascending [byteStart] order is
    kept.  With one resolvable and one unresolvable mention the post
    succeeds and the submitted record has exactly the resolvable mention. *)
Theorem resolveMentionFacets_drops_unresolved (P : Platform)
    (options : BlueskyOptions) (signal : option AbortSignal)
    (before after : list Facet) (idx : ByteSlice) (feature : Feature) (w : World) :
  isMention feature = true ->
  (exists resolvedBefore w1 resolvedAfter w3,
     resolveMentionFacets P options before signal w = (Return resolvedBefore, w1) /\
     resolveMentionFacets P options after signal
       (snd (resolveHandle P options (did feature) signal w1))
     = (Return resolvedAfter, w3) /\
     resolveMentionFacets P options (before ++ facetOf idx feature :: after) signal w =
     (Return (resolvedBefore
              ++ match fst (resolveHandle P options (did feature) signal w1) with
                 | Return d => [facetOf idx (withDid feature d)]
                 | Throw _ => []
                 end
              ++ resolvedAfter), w3)) /\
  (forall facets w0,
     exists out w',
       resolveMentionFacets P options facets signal w0 = (Return out, w') /\
       (index <$> out) `sublist_of` (index <$> facets) /\
       (Sorted ascending (index <$> facets) -> Sorted ascending (index <$> out))) /\
  (let run := post (mockPlatform onlyAlice) testStrategy
                (Some (js "Hello @alice and @nobody!")) None [] in
   fst run = Return CREATE_RECORD_RESPONSE /\
   submittedFacets <$> last (snd run) =
   Some [ facetOf {| byteStart := 6; byteEnd := 12 |}
            (mentionOf (js "did:plc:alice123")) ]).
Proof.
  intros Hm. split; [|split].
  - destruct (Resolves_resolveMentionFacets P options before signal w)
      as (resolvedBefore & calls & Eb & _).
    exists resolvedBefore, (w ++ calls).
    destruct (Resolves_resolveMentionFacets P options after signal
                (snd (resolveHandle P options (did feature) signal (w ++ calls))))
      as (resolvedAfter & calls' & Ea & _).
    exists resolvedAfter, (snd (resolveHandle P options (did feature) signal (w ++ calls)) ++ calls').
    split; [done|]. split; [done|].
    rewrite resolveMentionFacets_app, Eb, resolveMentionFacets_cons.
    rewrite resolveFacet_mention by done.
    destruct (resolveHandle P options (did feature) signal (w ++ calls))
      as [[d|e] w2]; simpl in *; by rewrite Ea.
  - intros facets w0.
    destruct (resolveMentionFacets_sublist P options signal facets w0)
      as (out & w' & E & Hsub).
    exists out, w'. split; [done|]. split; [done|].
    by apply Sorted_sublist_ascending.
  - vm_compute. split; reflexivity.
Qed.

Lemma resolveMentionFacets_drops_unresolved_witness :
  resolveMentionFacets (mockPlatform onlyAlice) testOptions
    [ facetOf {| byteStart := 6; byteEnd := 12 |} (mentionOf (js "alice"));
      facetOf {| byteStart := 17; byteEnd := 24 |} (mentionOf (js "nobody")) ] None []
  = (Return [ facetOf {| byteStart := 6; byteEnd := 12 |}
                (mentionOf (js "did:plc:alice123")) ],
     snd (resolveMentionFacets (mockPlatform onlyAlice) testOptions
            [ facetOf {| byteStart := 6; byteEnd := 12 |} (mentionOf (js "alice"));
              facetOf {| byteStart := 17; byteEnd := 24 |} (mentionOf (js "nobody")) ]
            None [])).
Proof.
  destruct (resolveMentionFacets_drops_unresolved (mockPlatform onlyAlice)
              testOptions None
              [ facetOf {| byteStart := 6; byteEnd := 12 |} (mentionOf (js "alice")) ]
              [] {| byteStart := 17; byteEnd := 24 |} (mentionOf (js "nobody")) []
              eq_refl) as ((rb & w1 & ra & w3 & Hb & Ha & Hall) & _).
  change ([facetOf {| byteStart := 6; byteEnd := 12 |} (mentionOf (js "alice"))]
          ++ facetOf {| byteStart := 17; byteEnd := 24 |} (mentionOf (js "nobody")) :: [])
    with [ facetOf {| byteStart := 6; byteEnd := 12 |} (mentionOf (js "alice"));
           facetOf {| byteStart := 17; byteEnd := 24 |} (mentionOf (js "nobody")) ] in Hall.
  rewrite Hall. vm_compute in Hb. injection Hb as <- <-.
  vm_compute in Ha. injection Ha as <- <-. vm_compute. reflexivity.
Defined.

(** ** The broadcaster *)

Section Broadcast.
Variable strategies : list Strategy.
Variable message : option jsstring.
Variable postOptions : option PostOptions.

Lemma settle_length slots i :
  length (settle strategies message postOptions slots i) = length slots.
Proof. unfold settle. destruct (strategies !! i); [apply length_insert|done]. Qed.

Lemma settled_length completion slots :
  length (foldl (settle strategies message postOptions) slots completion)
  = length slots.
Proof.
  revert slots. induction completion as [|i completion IH]; intros slots; simpl.
  - done.
  - by rewrite IH, settle_length.
Qed.

(** After the calls of [completion] have settled, in that order, the slot
    of an adapter whose call is among them holds its outcome, and the
    other slots are untouched. *)
Lemma settled_lookup completion slots j strategy :
  strategies !! j = Some strategy ->
  length slots = length strategies ->
  foldl (settle strategies message postOptions) slots completion !! j =
  if bool_decide (j ∈ completion)
  then Some (Some (outcome message postOptions strategy))
  else slots !! j.
Proof.
  intros Hj. revert slots.
  induction completion as [|i completion IH]; intros slots Hlen; simpl.
  - done.
  - rewrite IH by by rewrite settle_length.
    destruct (bool_decide_reflect (j ∈ completion)) as [Hin|Hnin].
    + rewrite bool_decide_eq_true_2; [done|]. by apply list_elem_of_further.
    + destruct (decide (i = j)) as [->|Hne].
      * rewrite bool_decide_eq_true_2 by apply list_elem_of_here.
        unfold settle. rewrite Hj. apply list_lookup_insert_eq.
        rewrite Hlen. by apply lookup_lt_Some in Hj.
      * rewrite bool_decide_eq_false_2.
        2:{ rewrite elem_of_cons. intros [->|?]; done. }
        unfold settle. destruct (strategies !! i); [|done].
        by apply list_lookup_insert_ne.
Qed.

Lemma clientPost_Some completion :
  completion ≡ₚ seq 0 (length strategies) ->
  clientPost strategies message postOptions completion =
  Some (outcome message postOptions <$> strategies).
Proof.
  intros Hperm. unfold clientPost.
  assert (foldl (settle strategies message postOptions)
            (replicate (length strategies) None) completion
          = Some <$> (outcome message postOptions <$> strategies)) as ->.
  { apply list_eq. intros j.
    destruct (strategies !! j) as [strategy|] eqn:Hj.
    - rewrite (settled_lookup _ _ _ _ Hj) by apply length_replicate.
      rewrite !list_lookup_fmap, Hj. simpl.
      rewrite bool_decide_eq_true_2; [done|].
      rewrite Hperm. apply elem_of_seq. apply lookup_lt_Some in Hj. lia.
    - rewrite !list_lookup_fmap, Hj. simpl.
      apply lookup_ge_None. rewrite settled_length, length_replicate.
      by apply lookup_ge_None in Hj. }
  by apply mapM_fmap_Some.
Qed.

End Broadcast.

(** C1. Whatever the order in which the adapters' calls complete (any
    permutation of the adapter indices), the broadcaster returns, and its
    output has the length of the adapter list, with the outcome of adapter
    [i] at index [i].  Replacing one adapter by any other, a failing one
    for instance, leaves the outcome at every other index as it was.  In
    [bin.js], the report of the response at each index finds the strategy
    at that index. *)
Theorem clientPost_aligned (strategies : list Strategy)
    (message : option jsstring) (postOptions : option PostOptions)
    (completion : list nat) :
  completion ≡ₚ seq 0 (length strategies) ->
  exists output,
    clientPost strategies message postOptions completion = Some output /\
    length output = length strategies /\
    (forall i, output !! i = outcome message postOptions <$> strategies !! i) /\
    (forall j other completion',
       completion' ≡ₚ seq 0 (length strategies) ->
       exists output',
         clientPost (<[j := other]> strategies) message postOptions completion'
         = Some output' /\
         forall i, i <> j -> output' !! i = output !! i) /\
    (forall i response,
       output !! i = Some response ->
       exists line, reportLine strategies response i = Return line).
Proof.
  intros Hperm. exists (outcome message postOptions <$> strategies).
  split; [by apply clientPost_Some|]. split; [apply length_fmap|].
  split; [intros i; apply list_lookup_fmap|]. split.
  - intros j other completion' Hperm'.
    exists (outcome message postOptions <$> <[j := other]> strategies).
    split; [apply clientPost_Some; by rewrite length_insert|].
    intros i Hne. rewrite !list_lookup_fmap.
    by rewrite list_lookup_insert_ne.
  - intros i response. rewrite list_lookup_fmap. unfold reportLine.
    destruct (strategies !! i); [|discriminate].
    intros _. destruct (isSuccessResponse response); eauto.
Qed.

(** Three adapters, the second failing; the third completes first. *)
Lemma clientPost_aligned_witness :
  exists output,
    clientPost [blueskyAdapter; failingAdapter; thirdAdapter]
      (Some (js "Hello, world!")) None [2; 0; 1] = Some output /\
    length output = 3 /\
    isSuccessResponse <$> output = [true; false; true].
Proof.
  destruct (clientPost_aligned [blueskyAdapter; failingAdapter; thirdAdapter]
              (Some (js "Hello, world!")) None [2; 0; 1])
    as (output & Hout & Hlen & Hat & _).
  - apply (bool_decide_unpack _). vm_compute. exact I.
  - exists output. split; [exact Hout|]. split; [exact Hlen|].
    vm_compute in Hout. injection Hout as <-. vm_compute. reflexivity.
Defined.

(** ** UTF-8 lengths *)

Lemma utf8Width_bounds c : 1 <= utf8Width c <= 3.
Proof. unfold utf8Width. destruct (c <? 128)%N, (c <? 2048)%N; lia. Qed.

Lemma utf8Width_low d : isLowSurrogate d = true -> utf8Width d = 3.
Proof.
  intros H. unfold utf8Width.
  destruct (N.ltb_spec d 128); [exfalso; unfold_classes; lia|].
  destruct (N.ltb_spec d 2048); [exfalso; unfold_classes; lia|done].
Qed.

Lemma utf8Width_high c : isHighSurrogate c = true -> utf8Width c = 3.
Proof.
  intros H. unfold utf8Width.
  destruct (N.ltb_spec c 128); [exfalso; unfold_classes; lia|].
  destruct (N.ltb_spec c 2048); [exfalso; unfold_classes; lia|done].
Qed.

Lemma utf8Length_cons c s :
  utf8Length (c :: s) =
  if isHighSurrogate c && startsLow s
  then S (utf8Length s)
  else utf8Width c + utf8Length s.
Proof.
  unfold utf8Length. destruct s as [|d s]; simpl.
  - rewrite andb_false_r. done.
  - destruct (isHighSurrogate c && isLowSurrogate d) eqn:E; simpl; [|done].
    apply andb_true_iff in E as [_ Hd].
    destruct s as [|e s]; simpl.
    + rewrite (utf8Width_low d Hd). done.
    + rewrite (low_not_high d Hd). simpl. rewrite (utf8Width_low d Hd). done.
Qed.

Lemma utf8Length_pos s : s <> [] -> 0 < utf8Length s.
Proof.
  destruct s as [|c s]; [done|]. intros _. rewrite utf8Length_cons.
  pose proof (utf8Width_bounds c). destruct (_ && _); lia.
Qed.

Lemma utf8Length_startsLow s : startsLow s = true -> 3 <= utf8Length s.
Proof.
  destruct s as [|d s]; [done|]. simpl. intros Hd.
  rewrite utf8Length_cons, (low_not_high d Hd), (utf8Width_low d Hd). simpl. lia.
Qed.

(** Appending never shortens the encoding, and appending something
    lengthens it, also when the two parts meet inside a surrogate pair. *)
Lemma utf8Length_app a b :
  utf8Length a <= utf8Length (a ++ b) /\
  (b <> [] -> utf8Length a < utf8Length (a ++ b)).
Proof.
  induction a as [|c a [IHle IHlt]].
  - simpl app. change (utf8Length []) with 0. split; [lia|apply utf8Length_pos].
  - rewrite <- app_comm_cons, !utf8Length_cons.
    destruct a as [|d a].
    + simpl app. simpl startsLow at 2. rewrite andb_false_r.
      destruct (isHighSurrogate c && startsLow b) eqn:E.
      * apply andb_true_iff in E as [Hc Hb].
        rewrite (utf8Width_high c Hc).
        pose proof (utf8Length_startsLow b Hb).
        change (utf8Length []) with 0. split; [lia|]. intros _. lia.
      * change (utf8Length []) with 0. split; [lia|].
        intros Hb. pose proof (utf8Length_pos b Hb). lia.
    + change (startsLow ((d :: a) ++ b)) with (startsLow (d :: a)).
      destruct (isHighSurrogate c && startsLow (d :: a)).
      * split; [lia|]. intros Hb. specialize (IHlt Hb). lia.
      * split; [lia|]. intros Hb. specialize (IHlt Hb). lia.
Qed.

Lemma take_add {A} (t : list A) n k :
  take (n + k) t = take n t ++ take k (drop n t).
Proof.
  revert t. induction n as [|n IH]; intros t; simpl; [done|].
  destruct t as [|x t]; simpl; [by rewrite take_nil|]. by rewrite IH.
Qed.

Lemma take_split {A} (t : list A) n m :
  n <= m -> take m t = take n t ++ take (m - n) (drop n t).
Proof.
  intros Hle. rewrite <- take_add. f_equal. lia.
Qed.

Lemma utf8Length_take_le t n m :
  n <= m -> utf8Length (take n t) <= utf8Length (take m t).
Proof. intros H. rewrite (take_split t n m H). apply utf8Length_app. Qed.

Lemma utf8Length_take_lt t n m :
  n < m -> m <= length t -> utf8Length (take n t) < utf8Length (take m t).
Proof.
  intros Hlt Hm. rewrite (take_split t n m) by lia. apply utf8Length_app.
  intros Hnil. apply (f_equal length) in Hnil.
  rewrite length_take, length_drop in Hnil. simpl in Hnil. lia.
Qed.

Lemma utf8Length_take_all t n : utf8Length (take n t) <= utf8Length t.
Proof. rewrite <- (take_drop n t) at 2. apply utf8Length_app. Qed.

(** ** The spans of the detector *)

Lemma truncateUrl_length url :
  url <> [] -> 0 < length (truncateUrl url).
Proof.
  intros Hu. unfold truncateUrl. destruct (URL_DISPLAY_LENGTH <? length url).
  - rewrite length_app. change (length (js "...")) with 3. lia.
  - destruct url; [done|simpl; lia].
Qed.



Lemma truncateUrl_keepsStart : keepsStart truncateUrl.
Proof.
  intros u rest. unfold truncateUrl.
  by destruct (URL_DISPLAY_LENGTH <? length (104%N :: u)).
Qed.

(** The link spans against the rewritten text: each span covers the
    rendering of its URL, and the spans follow one another. *)
Lemma linkSpansFrom_spec skip pos s :
  Forall (fun sp =>
            pos <= spanStart sp /\ 0 < spanLength sp /\ spanKind sp = Link /\
            take (spanLength sp)
                 (drop (spanStart sp - pos) (replaceFrom matchUrlAt truncateUrl skip s))
            = truncateUrl (spanTarget sp) /\
            spanStart sp - pos + spanLength sp
            <= length (replaceFrom matchUrlAt truncateUrl skip s))
         (linkSpansFrom skip pos s) /\
  StronglySorted precedes (linkSpansFrom skip pos s).
Proof.
  revert skip pos. induction s as [|c rest IH]; intros skip pos.
  - split; constructor.
  - destruct skip as [|k]; [|apply IH].
    cbn [linkSpansFrom replaceFrom].
    destruct (matchUrlAt (c :: rest)) as [[|k]|] eqn:M.
    + by apply matchUrlAt_not_zero in M.
    + destruct (IH k (pos + length (truncateUrl (take (S k) (c :: rest)))))
        as [Hall Hsorted].
      set (shown := truncateUrl (take (S k) (c :: rest))) in *.
      assert (0 < length shown) as Hshown by by apply truncateUrl_length.
      split.
      * constructor.
        -- cbn [spanStart spanLength spanKind spanTarget].
           rewrite Nat.sub_diag, drop_0, take_app_length, length_app.
           repeat split; [lia|done|lia].
        -- eapply Forall_impl; [exact Hall|].
           intros sp (Hpos & Hlen & Hkind & Htake & Hend).
           split; [lia|]. split; [done|]. split; [done|].
           rewrite drop_app_ge by lia.
           replace (spanStart sp - pos - length shown)
             with (spanStart sp - (pos + length shown)) by lia.
           split; [done|]. rewrite length_app. lia.
      * constructor; [done|].
        eapply Forall_impl; [exact Hall|].
        intros sp (Hpos & _). unfold precedes, spanEnd. simpl. lia.
    + destruct (IH 0 (S pos)) as [Hall Hsorted]. split; [|done].
      eapply Forall_impl; [exact Hall|].
      intros sp (Hpos & Hlen & Hkind & Htake & Hend).
      split; [lia|]. split; [done|]. split; [done|].
      replace (spanStart sp - pos) with (S (spanStart sp - S pos)) by lia.
      simpl. split; [done|lia].
Qed.

Lemma urlsOf_consText c ts : urlsOf (consText c ts) = urlsOf ts.
Proof. by destruct ts as [|[t|u] ts]. Qed.


(** The matches of a pattern lie in the text. *)
Lemma matchAllFrom_spec matchAt kind skip pos s :
  (forall s n, matchAt s = Some n -> n <= length s) ->
  Forall (fun sp => pos + skip <= spanStart sp /\ 0 < spanLength sp /\
                    spanEnd sp <= pos + length s)
         (matchAllFrom matchAt kind skip pos s).
Proof.
  intros Hm. revert skip pos. induction s as [|c rest IH]; intros skip pos.
  - constructor.
  - destruct skip as [|k].
    + cbn [matchAllFrom]. destruct (matchAt (c :: rest)) as [[|k]|] eqn:M.
      * eapply Forall_impl; [apply (IH 0 (S pos))|].
        intros sp (? & ? & ?). simpl. lia.
      * apply Hm in M. constructor.
        -- unfold spanEnd. simpl in *. lia.
        -- eapply Forall_impl; [apply (IH k (S pos))|].
           intros sp (? & ? & ?). simpl. lia.
      * eapply Forall_impl; [apply (IH 0 (S pos))|].
        intros sp (? & ? & ?). simpl. lia.
    + cbn [matchAllFrom]. eapply Forall_impl; [apply (IH k (S pos))|].
      intros sp (? & ? & ?). simpl. lia.
Qed.

Lemma handleLength_le s : handleLength s <= length s.
Proof.
  remember (length s) as n eqn:Hn. revert s Hn.
  induction n as [n IH] using lt_wf_ind. intros [|c rest] Hn; [simpl; lia|].
  cbn [handleLength]. destruct (isLabelChar c); [|lia].
  destruct rest as [|d rest']; [simpl in *; lia|].
  destruct (isLabelChar d).
  - pose proof (IH (length (d :: rest')) ltac:(subst n; simpl; lia) (d :: rest') eq_refl).
    subst n. simpl in *. lia.
  - destruct (d =? 46)%N; [|subst n; simpl; lia].
    pose proof (IH (length rest') ltac:(subst n; simpl; lia) rest' eq_refl).
    destruct (handleLength rest'); subst n; simpl in *; lia.
Qed.

Lemma matchMentionAt_le s n : matchMentionAt s = Some n -> n <= length s.
Proof.
  destruct s as [|c rest]; [discriminate|]. simpl.
  destruct (c =? 64)%N; [|discriminate].
  pose proof (handleLength_le rest).
  destruct (handleLength rest); [discriminate|]. intros [= <-]. lia.
Qed.

Lemma matchTagAt_le s n : matchTagAt s = Some n -> n <= length s.
Proof.
  destruct s as [|c rest]; [discriminate|]. simpl.
  destruct (c =? 35)%N; [|discriminate].
  pose proof (runLength_le isTagChar rest).
  destruct (runLength isTagChar rest); [discriminate|]. intros [= <-]. lia.
Qed.

(** ** Claiming and ordering the spans *)

Lemma overlaps_sym a b : overlaps a b = overlaps b a.
Proof. unfold overlaps. apply andb_comm. Qed.

Lemma precedes_apart a b : precedes a b -> apart a b.
Proof.
  unfold precedes, apart, overlaps. intros H.
  apply andb_false_iff. right. apply Nat.ltb_ge. lia.
Qed.

Lemma StronglySorted_snoc {A} (R : relation A) l x :
  StronglySorted R l -> Forall (fun a => R a x) l -> StronglySorted R (l ++ [x]).
Proof.
  induction 1 as [|a l Hs IH Ha]; intros Hx; simpl.
  - repeat constructor.
  - apply Forall_cons in Hx as [Hax Hx]. constructor; [by apply IH|].
    apply Forall_app. split; [done|]. by constructor.
Qed.

Lemma StronglySorted_Permutation {A} (R : relation A) `{!Symmetric R} l l' :
  l ≡ₚ l' -> StronglySorted R l -> StronglySorted R l'.
Proof.
  induction 1 as [|x l l' Hp IH|x y l|l l' l'' _ IH1 _ IH2]; intros Hs.
  - done.
  - apply StronglySorted_inv in Hs as [Hs Hx].
    constructor; [by apply IH|]. by rewrite <- Hp.
  - apply StronglySorted_inv in Hs as [Hs Hy].
    apply StronglySorted_inv in Hs as [Hs Hx].
    apply Forall_cons in Hy as [Hyx Hy].
    constructor; [by constructor|]. constructor; [by symmetry|done].
  - auto.
Qed.

Lemma StronglySorted_weaken {A} (R R' : relation A) l :
  (forall a b, R a b -> R' a b) -> StronglySorted R l -> StronglySorted R' l.
Proof.
  intros HR. induction 1 as [|a l Hs IH Ha]; constructor; [done|].
  eapply Forall_impl; [exact Ha|]. intros b. apply HR.
Qed.

#[local] Instance apart_sym : Symmetric apart.
Proof. intros a b. unfold apart. by rewrite overlaps_sym. Qed.

#[local] Instance startsBefore_total : Total startsBefore.
Proof. intros a b. unfold startsBefore. lia. Qed.

(** Claiming keeps what was claimed, adds only candidates, and keeps the
    claimed spans apart from one another. *)
Lemma claim_spec claimed candidates :
  exists extra,
    claim claimed candidates = claimed ++ extra /\
    Forall (fun sp => sp ∈ candidates) extra /\
    (StronglySorted apart claimed -> StronglySorted apart (claimed ++ extra)).
Proof.
  unfold claim. revert claimed.
  induction candidates as [|c candidates IH]; intros claimed; simpl.
  - exists []. rewrite app_nil_r. by repeat split.
  - destruct (existsb (overlaps c) claimed) eqn:E.
    + destruct (IH claimed) as (extra & -> & Hin & Hs).
      exists extra. split; [done|]. split; [|done].
      eapply Forall_impl; [exact Hin|]. intros sp ?. by apply list_elem_of_further.
    + destruct (IH (claimed ++ [c])) as (extra & -> & Hin & Hs).
      exists (c :: extra). rewrite <- app_assoc. split; [done|]. split.
      * constructor; [apply list_elem_of_here|].
        eapply Forall_impl; [exact Hin|]. intros sp ?. by apply list_elem_of_further.
      * intros Hc. rewrite cons_middle, app_assoc. apply Hs.
        apply StronglySorted_snoc; [done|].
        apply Forall_forall. intros a Ha.
        unfold apart. rewrite overlaps_sym.
        destruct (overlaps c a) eqn:Hca; [|done].
        assert (existsb (overlaps c) claimed = true) as Hex; [|congruence].
        apply existsb_exists. exists a. split; [by apply list_elem_of_In|done].
Qed.

(** Sorted by start and pairwise apart, non-empty spans follow one another. *)
Lemma Sorted_precedes l :
  Sorted startsBefore l -> StronglySorted apart l ->
  Forall (fun sp => 0 < spanLength sp) l -> Sorted precedes l.
Proof.
  induction 1 as [|a l Hs IH Hhd]; intros Hap Hlen; [constructor|].
  apply StronglySorted_inv in Hap as [Hap Ha].
  apply Forall_cons in Hlen as [Hla Hlen].
  constructor; [by apply IH|].
  destruct Hhd as [|b l Hab]; constructor.
  apply Forall_cons in Ha as [Hab' _]. apply Forall_cons in Hlen as [Hlb _].
  unfold apart, overlaps, startsBefore, precedes, spanEnd in *.
  apply andb_false_iff in Hab' as [H|H]; apply Nat.ltb_ge in H; lia.
Qed.

(** The claimed spans of a message: in the rewritten text, apart from one
    another, the link spans among them. *)
Lemma claimedSpans_spec message :
  let rewritten := replace matchUrlAt truncateUrl message in
  Forall (inText rewritten) (claimedSpans message) /\
  StronglySorted apart (claimedSpans message) /\
  Forall (fun sp => sp ∈ claimedSpans message) (linkSpans message).
Proof.
  intros rewritten. unfold claimedSpans. fold rewritten.
  destruct (claim_spec (linkSpans message)
              (mentionSpans rewritten ++ tagSpans rewritten))
    as (extra & -> & Hin & Hs).
  destruct (linkSpansFrom_spec 0 0 message) as [Hlinks Hsorted].
  fold (linkSpans message) in Hlinks, Hsorted.
  split; [|split].
  - apply Forall_app. split.
    + eapply Forall_impl; [exact Hlinks|].
      intros sp (_ & Hlen & _ & _ & Hend). split; [done|].
      unfold spanEnd. fold (replace matchUrlAt truncateUrl message) in Hend.
      fold rewritten in Hend. lia.
    + apply Forall_forall. intros sp Hsp.
      rewrite Forall_forall in Hin. apply Hin in Hsp.
      apply elem_of_app in Hsp as [Hsp|Hsp].
      * pose proof (matchAllFrom_spec matchMentionAt Mention 0 0 rewritten
                      matchMentionAt_le) as Hm.
        rewrite Forall_forall in Hm. destruct (Hm sp Hsp) as (_ & ? & ?). by split.
      * pose proof (matchAllFrom_spec matchTagAt Hashtag 0 0 rewritten
                      matchTagAt_le) as Hm.
        rewrite Forall_forall in Hm. destruct (Hm sp Hsp) as (_ & ? & ?). by split.
  - apply Hs. apply (StronglySorted_weaken precedes); [|exact Hsorted].
    intros a b. apply precedes_apart.
  - apply Forall_forall. intros sp Hsp. apply elem_of_app. by left.
Qed.

(** The spans behind the facets, in order. *)
Lemma sortedSpans_spec message :
  let rewritten := replace matchUrlAt truncateUrl message in
  let spans := merge_sort startsBefore (claimedSpans message) in
  facets (detectFacets message) = toFacet rewritten <$> spans /\
  text (detectFacets message) = rewritten /\
  Forall (inText rewritten) spans /\
  Sorted startsBefore spans /\
  Sorted precedes spans /\
  Forall (fun sp => sp ∈ spans) (linkSpans message).
Proof.
  intros rewritten spans.
  destruct (claimedSpans_spec message) as (Hin & Hap & Hlinks).
  fold rewritten in Hin.
  pose proof (merge_sort_Permutation startsBefore (claimedSpans message)) as Hp.
  fold spans in Hp.
  assert (Forall (inText rewritten) spans) as Hin' by by rewrite Hp.
  assert (Sorted startsBefore spans) as Hs by apply (Sorted_merge_sort _).
  split; [done|]. split; [done|]. split; [done|]. split; [done|]. split.
  - apply Sorted_precedes; [done| |].
    + apply (StronglySorted_Permutation apart (claimedSpans message)); [|done].
      by symmetry.
    + eapply Forall_impl; [exact Hin'|]. by intros sp [? _].
  - eapply Forall_impl; [exact Hlinks|]. intros sp Hsp. by rewrite Hp.
Qed.

(** ** The facets of the detector *)

(** C4. The facets the detector produces are sorted ascending by
    [byteStart]; each ends no later than the next begins (equality, spans
    that touch, is allowed and occurs); every facet has
    [0 <= byteStart < byteEnd <= byteLength(text)], [text] being the text
    the detector returns; the empty text has no facets. *)
Theorem detectFacets_invariants (message : jsstring) :
  let result := detectFacets message in
  Sorted (fun f g => byteStart (index f) <= byteStart (index g)) (facets result) /\
  Sorted (fun f g => byteEnd (index f) <= byteStart (index g)) (facets result) /\
  Forall (fun f => 0 <= byteStart (index f) /\
                   byteStart (index f) < byteEnd (index f) /\
                   byteEnd (index f) <= utf8Length (text result))
         (facets result) /\
  facets (detectFacets []) = [] /\
  index <$> facets (detectFacets (js "@a#b")) =
  [ {| byteStart := 0; byteEnd := 2 |}; {| byteStart := 2; byteEnd := 4 |} ].
Proof.
  intros result. subst result.
  destruct (sortedSpans_spec message) as (-> & -> & Hin & Hstart & Hprec & _).
  split; [|split; [|split; [|split]]].
  - eapply Sorted_fmap; [|exact Hstart].
    intros a b Hab. simpl. by apply utf8Length_take_le.
  - eapply Sorted_fmap; [|exact Hprec].
    intros a b Hab. simpl. by apply utf8Length_take_le.
  - apply Forall_fmap. eapply Forall_impl; [exact Hin|].
    intros sp [Hlen Hend]. simpl. split; [lia|]. split.
    + apply utf8Length_take_lt; [unfold spanEnd; lia|done].
    + apply utf8Length_take_all.
  - reflexivity.
  - vm_compute. reflexivity.
Qed.



Example detectFacets_long_url :
  facets (detectFacets (js "Check this out: " ++ longUrl)) =
  [ facetOf {| byteStart := 16; byteEnd := 43 |} (linkFeature longUrl) ].
Proof. vm_compute. reflexivity. Qed.

(** ** The byte offsets are those of the UTF-8 encoding *)

Lemma codePoints_shape s :
  Forall (fun cp => (exists c, cp = [c]) \/ exists h l, cp = [h; l]) (codePoints s).
Proof.
  remember (length s) as n eqn:Hn. revert s Hn.
  induction n as [n IH] using lt_wf_ind. intros [|c [|d s]] Hn.
  - constructor.
  - constructor; [left; by exists c|constructor].
  - change (codePoints (c :: d :: s))
      with (if isHighSurrogate c && isLowSurrogate d
            then [c; d] :: codePoints s else [c] :: codePoints (d :: s)).
    destruct (isHighSurrogate c && isLowSurrogate d).
    + constructor; [right; by exists c, d|].
      apply (IH (length s)); [subst n; simpl; lia|done].
    + constructor; [left; by exists c|].
      apply (IH (length (d :: s))); [subst n; simpl; lia|done].
Qed.

Lemma utf8OfCodePoint_length cp :
  (exists c, cp = [c]) \/ (exists h l, cp = [h; l]) ->
  length (utf8OfCodePoint cp) = utf8Bytes cp.
Proof.
  intros [[c ->]|(h & l & ->)]; [|done].
  unfold utf8OfCodePoint, utf8Bytes, utf8Width.
  destruct (c <? 128)%N; [done|]. destruct (c <? 2048)%N; [done|].
  by destruct (isHighSurrogate c || isLowSurrogate c).
Qed.

Lemma utf8Length_encode s : utf8Length s = length (utf8Encode s).
Proof.
  unfold utf8Length, utf8Encode.
  induction (codePoints_shape s) as [|cp cps Hcp _ IH]; [done|].
  rewrite fmap_cons. cbn [concat sum_list_with].
  by rewrite length_app, utf8OfCodePoint_length, IH.
Qed.

Lemma utf8Width_ascii c : utf8Width c = 1 <-> isAscii c.
Proof.
  unfold utf8Width, isAscii.
  destruct (N.ltb_spec c 128); [done|].
  destruct (c <? 2048)%N; split; (lia || discriminate).
Qed.

(** The encoding is never shorter than the string, and as long only when
    every code unit is ASCII. *)
Lemma utf8Length_ge s :
  length s <= utf8Length s /\ (utf8Length s = length s <-> Forall isAscii s).
Proof.
  induction s as [|c s [IHle IHeq]]; [split; [done|by split]|].
  rewrite utf8Length_cons. pose proof (utf8Width_bounds c) as Hw.
  pose proof (utf8Width_ascii c) as Ha.
  destruct (isHighSurrogate c && startsLow s) eqn:E.
  - apply andb_true_iff in E as [Hc Hs]. simpl. split; [lia|].
    pose proof (utf8Length_startsLow s Hs) as H3.
    split.
    + intros [= H]. apply IHeq in H.
      destruct s as [|d s]; [discriminate|]. simpl in Hs.
      apply Forall_cons in H as [Hd _]. unfold isAscii in Hd.
      exfalso. unfold_classes. lia.
    + intros H. apply Forall_cons in H as [Hc' _]. unfold isAscii in Hc'.
      exfalso. unfold_classes. lia.
  - simpl. split; [lia|]. rewrite Forall_cons. split.
    + intros H. split; [apply Ha; lia|apply IHeq; lia].
    + intros [Hc Hs]. apply Ha in Hc. apply IHeq in Hs. lia.
Qed.

Lemma cpLength_ascii s : Forall isAscii s -> cpLength s = length s.
Proof.
  induction 1 as [|c s Hc _ IH]; [done|]. rewrite cpLength_cons, IH.
  assert (isHighSurrogate c = false) as ->; [|done].
  unfold isAscii in Hc. unfold isHighSurrogate.
  apply andb_false_iff. left. apply N.leb_gt. lia.
Qed.

(** C2. The offsets of every facet are lengths of the UTF-8 encoding of
    prefixes of the text the detector returns (the rewritten text): the
    bytes of the prefix before the span and of the prefix through it.  So
    an offset is never less than the UTF-16 index, and it is the UTF-16
    index, or the character index, only when everything before is ASCII.
    The encoder gives two bytes to U+00E9, three to U+65E5 and four to
    U+1F30D; in a text with such characters the offsets are the byte
    offsets ([3,7), [8,27), [35,39) where the UTF-16 indices are [2,6),
    [7,26), [30,34)).  The two examples of the spec come out as stated, the
    second with both handles resolving. *)
Theorem facet_offsets_are_utf8_bytes (message : jsstring) :
  let result := detectFacets message in
  Forall (fun f =>
            exists sp,
              inText (text result) sp /\
              let before := take (spanStart sp) (text result) in
              let through := take (spanEnd sp) (text result) in
              length before = spanStart sp /\
              length through = spanEnd sp /\
              byteStart (index f) = length (utf8Encode before) /\
              byteEnd (index f) = length (utf8Encode through) /\
              spanStart sp <= byteStart (index f) /\
              spanEnd sp <= byteEnd (index f) /\
              (byteStart (index f) = spanStart sp <-> Forall isAscii before) /\
              (byteStart (index f) = cpLength before <-> Forall isAscii before) /\
              (byteEnd (index f) = spanEnd sp <-> Forall isAscii through))
         (facets result) /\
  (utf8Encode [233]%N = [195; 169]%N /\
   utf8Encode [26085]%N = [230; 151; 165]%N /\
   utf8Encode [55356; 57101]%N = [240; 159; 140; 141]%N /\
   utf8Encode [55356]%N = [239; 191; 189]%N /\
   utf8Encode (js "a@") = [97; 64]%N) /\
  index <$> facets (detectFacets accentedMessage) =
  [ {| byteStart := 3; byteEnd := 7 |}; {| byteStart := 8; byteEnd := 27 |};
    {| byteStart := 35; byteEnd := 39 |} ] /\
  index <$> facets (detectFacets ([55356; 57101; 32]%N ++ js "https://example.com")) =
  [ {| byteStart := 5; byteEnd := 24 |} ] /\
  detectFacets (js "Hello, world! https://example.com") =
  {| facets := [ facetOf {| byteStart := 14; byteEnd := 33 |}
                   (linkFeature (js "https://example.com")) ];
     text := js "Hello, world! https://example.com" |} /\
  fst (resolveMentionFacets (mockPlatform aliceAndBob) testOptions
         (facets (detectFacets (js "Hello @alice and @bob.example.com!"))) None [])
  = Return [ facetOf {| byteStart := 6; byteEnd := 12 |}
               (mentionOf (js "did:plc:alice123"));
             facetOf {| byteStart := 17; byteEnd := 33 |}
               (mentionOf (js "did:plc:bob456")) ].
Proof.
  intros result. subst result.
  destruct (sortedSpans_spec message) as (-> & -> & Hin & _).
  split; [|split; [|split; [|split; [|split]]]];
    [|by vm_compute|vm_compute; reflexivity..].
  apply Forall_fmap. eapply Forall_impl; [exact Hin|].
  intros sp [Hpos Hend]. exists sp. split; [by split|].
  cbv zeta. rewrite <- !utf8Length_encode. cbn [toFacet index byteStart byteEnd].
  set (t := replace matchUrlAt truncateUrl message) in *.
  assert (length (take (spanStart sp) t) = spanStart sp) as Hb
    by (rewrite length_take; unfold spanEnd in Hend; lia).
  assert (length (take (spanEnd sp) t) = spanEnd sp) as He
    by (rewrite length_take; lia).
  destruct (utf8Length_ge (take (spanStart sp) t)) as [Hle1 Heq1].
  destruct (utf8Length_ge (take (spanEnd sp) t)) as [Hle2 Heq2].
  rewrite Hb in Hle1, Heq1. rewrite He in Hle2, Heq2.
  split; [done|]. split; [done|]. split; [done|]. split; [done|].
  split; [done|]. split; [done|]. split; [done|]. split; [|done].
  split.
  - intros H. apply Heq1.
    pose proof (cpLength_le (take (spanStart sp) t)). lia.
  - intros H. rewrite (cpLength_ascii _ H), Hb. by apply Heq1.
Qed.

(** The threshold: a URL of 27 characters is kept, one of 28 is rendered
    in 27, and the facet keeps the 28. *)
Example detectFacets_at_threshold :
  detectFacets (js "https://example.com/1234567") =
  {| facets := [ facetOf {| byteStart := 0; byteEnd := 27 |}
                   (linkFeature (js "https://example.com/1234567")) ];
     text := js "https://example.com/1234567" |}.
Proof. vm_compute. reflexivity. Qed.

Example detectFacets_over_threshold :
  detectFacets (js "https://example.com/12345678") =
  {| facets := [ facetOf {| byteStart := 0; byteEnd := 27 |}
                   (linkFeature (js "https://example.com/12345678")) ];
     text := js "https://example.com/1234..." |}.
Proof. vm_compute. reflexivity. Qed.

(** A URL that contains [@] is a link only. *)
Example detectFacets_url_with_at :
  features <$> facets (detectFacets (js "see https://example.com/@alice now")) =
  [ [ linkFeature (js "https://example.com/@alice") ] ].
Proof. vm_compute. reflexivity. Qed.

Example detectFacets_mixed_urls :
  index <$> facets (detectFacets
    (js "Short: https://example.com and long: https://example.org/very/long/path/that/should/be/truncated/because/it/exceeds/the/limit")) =
  [ {| byteStart := 7; byteEnd := 26 |}; {| byteStart := 37; byteEnd := 64 |} ].
Proof. vm_compute. reflexivity. Qed.

(** * Further properties of the code *)

(** ** [calculateMessageLength] *)

Lemma contribution_le t : contribution t <= length (tokenText t).
Proof.
  destruct t as [t|u]; simpl; [apply cpLength_le|].
  unfold URL_DISPLAY_LENGTH. destruct (Nat.ltb_spec 27 (length u)); [lia|].
  apply cpLength_le.
Qed.

Lemma sum_contribution_le ts :
  sum_list_with contribution ts <= length (concat (tokenText <$> ts)).
Proof.
  induction ts as [|t ts IH]; [done|].
  rewrite fmap_cons. cbn [sum_list_with concat]. rewrite length_app.
  pose proof (contribution_le t). lia.
Qed.

(** X1. The calculated length never exceeds the [length] of the message. *)
Theorem calculateMessageLength_le_length (message : jsstring) :
  calculateMessageLength message <= length message.
Proof.
  rewrite calculateMessageLength_tokens.
  rewrite <- (tokens_concat message) at 2. apply sum_contribution_le.
Qed.

Lemma urlPlaceholder_short u :
  length u <= URL_DISPLAY_LENGTH -> urlPlaceholder u = u.
Proof.
  intros H. unfold urlPlaceholder.
  by destruct (Nat.ltb_spec URL_DISPLAY_LENGTH (length u)); [lia|].
Qed.

Lemma urlsOf_cons_url u ts : urlsOf (Url u :: ts) = u :: urlsOf ts.
Proof. reflexivity. Qed.

Lemma replace_placeholder_short s :
  urlsAreShort s -> replace matchUrlAt urlPlaceholder s = s.
Proof.
  unfold urlsAreShort.
  remember (length s) as n eqn:Hn. revert s Hn.
  induction n as [n IH] using lt_wf_ind. intros [|c s] Hn Hshort; [done|].
  destruct (matchUrlAt (c :: s)) as [[|k]|] eqn:M.
  - by apply matchUrlAt_not_zero in M.
  - rewrite (replace_match _ _ _ M). rewrite (tokens_match _ _ M) in Hshort.
    rewrite urlsOf_cons_url in Hshort.
    apply Forall_cons in Hshort as [Hu Hrest].
    pose proof (matchUrlAt_Some _ _ M) as (_ & _ & Hle & _).
    rewrite (urlPlaceholder_short _ Hu).
    rewrite (IH (length (drop (S k) (c :: s)))); [apply take_drop| |done|done].
    rewrite length_drop. subst n. simpl in *. lia.
  - rewrite replace_nomatch by done. rewrite tokens_nomatch in Hshort by done.
    rewrite urlsOf_consText in Hshort.
    f_equal. apply (IH (length s)); [subst n; simpl; lia|done|done].
Qed.

(** X2. When no URL token of the message is longer than 27, the calculated
    length is the number of code points of the message, [[...message].length]. *)
Theorem calculateMessageLength_short_urls_exact (message : jsstring) :
  urlsAreShort message ->
  calculateMessageLength message = length (codePoints message).
Proof.
  intros H. unfold calculateMessageLength. by rewrite replace_placeholder_short.
Qed.

Lemma calculateMessageLength_short_urls_exact_witness :
  calculateMessageLength
    (js "Check this out: https://example.com/abcde and http://foo.bar")
  = length (codePoints
      (js "Check this out: https://example.com/abcde and http://foo.bar")).
Proof.
  apply calculateMessageLength_short_urls_exact.
  unfold urlsAreShort. apply (bool_decide_unpack _). vm_compute. exact I.
Defined.

(** *** Messages joined by white space *)

Lemma stripPrefix_before p s w b :
  Forall (fun x => (x =? w)%N = false) p ->
  stripPrefix p (s ++ w :: b) = (fun r => r ++ w :: b) <$> stripPrefix p s.
Proof.
  intros Hp. revert s. induction Hp as [|a p Ha Hp IH]; intros s; [done|].
  destruct s as [|c s]; simpl.
  - by rewrite Ha.
  - destruct (a =? c)%N; [apply IH|done].
Qed.

Lemma runLength_before f t w b :
  f w = false -> runLength f (t ++ w :: b) = runLength f t.
Proof.
  intros Hw. induction t as [|c t IH]; simpl; [by rewrite Hw|].
  destruct (f c); [by rewrite IH|done].
Qed.

Lemma literal_no_whitespace p w :
  isWhiteSpace w = true ->
  forallb (fun x => negb (isWhiteSpace x)) p = true ->
  Forall (fun x => (x =? w)%N = false) p.
Proof.
  intros Hw Hp. apply Forall_forall. intros x Hx.
  apply forallb_forall with (x := x) in Hp; [|by apply list_elem_of_In].
  destruct (N.eqb_spec x w) as [->|]; [|done]. by rewrite Hw in Hp.
Qed.

Lemma urlTail_before r w b :
  isWhiteSpace w = true -> urlTail (r ++ w :: b) = urlTail r.
Proof.
  intros Hw. unfold urlTail.
  rewrite stripPrefix_before by by apply literal_no_whitespace.
  destruct (stripPrefix (js "://") r) as [t|]; simpl; [|done].
  rewrite runLength_before; [done|]. by rewrite Hw.
Qed.

(** White space ends a URL token as the end of the message does. *)
Lemma matchUrlAt_before s w b :
  isWhiteSpace w = true -> matchUrlAt (s ++ w :: b) = matchUrlAt s.
Proof.
  intros Hw. unfold matchUrlAt.
  rewrite stripPrefix_before by by apply literal_no_whitespace.
  destruct (stripPrefix (js "http") s) as [r|]; simpl; [|done].
  rewrite urlTail_before by done.
  destruct r as [|c r']; simpl.
  - destruct (N.eqb_spec w 115) as [->|]; [discriminate|done].
  - by rewrite urlTail_before.
Qed.

Lemma replace_before callback a w b :
  isWhiteSpace w = true ->
  replace matchUrlAt callback (a ++ w :: b) =
  replace matchUrlAt callback a ++ w :: replace matchUrlAt callback b.
Proof.
  intros Hw. remember (length a) as n eqn:Hn. revert a Hn.
  induction n as [n IH] using lt_wf_ind. intros [|c a] Hn.
  - simpl app. apply replace_nomatch.
    change (matchUrlAt ([] ++ w :: b) = None). by rewrite matchUrlAt_before.
  - pose proof (matchUrlAt_before (c :: a) w b Hw) as Hm.
    destruct (matchUrlAt (c :: a)) as [[|k]|] eqn:M.
    + by apply matchUrlAt_not_zero in M.
    + pose proof (matchUrlAt_Some _ _ M) as (_ & _ & Hle & _).
      rewrite (replace_match _ _ _ Hm), (replace_match _ _ _ M).
      rewrite take_app_le, drop_app_le by done.
      rewrite (IH (length (drop (S k) (c :: a)))); [by rewrite <- app_assoc| |done].
      rewrite length_drop. subst n. simpl in *. lia.
    + rewrite <- app_comm_cons, !replace_nomatch by done.
      rewrite (IH (length a)); [done| |done]. subst n. simpl. lia.
Qed.

Lemma whitespace_not_high w : isWhiteSpace w = true -> isHighSurrogate w = false.
Proof.
  intros H. destruct (isHighSurrogate w) eqn:E; [|done].
  exfalso. unfold_classes; lia.
Qed.

(** X3. The calculated length of two messages joined by a white space
    character is the sum of their calculated lengths, plus one. *)
Theorem calculateMessageLength_joined (a b : jsstring) (w : N) :
  isWhiteSpace w = true ->
  calculateMessageLength (a ++ w :: b) =
  calculateMessageLength a + 1 + calculateMessageLength b.
Proof.
  intros Hw. unfold calculateMessageLength.
  rewrite replace_before by done.
  rewrite cpLength_app by (simpl; by apply whitespace_not_low).
  rewrite cpLength_cons, (whitespace_not_high w Hw). simpl. lia.
Qed.

Lemma calculateMessageLength_joined_witness :
  calculateMessageLength (js "Read https://example.com/a/very/long/path/indeed" ++ 32%N :: js "now")
  = calculateMessageLength (js "Read https://example.com/a/very/long/path/indeed") + 1
    + calculateMessageLength (js "now").
Proof. apply calculateMessageLength_joined. reflexivity. Defined.

(** ** [resolveMentionFacets] and [resolveHandle] *)

Lemma forOf_plain_features P options signal fs acc w :
  Forall (fun feature => isMention feature = false) fs ->
  forOf fs (resolveFeature P options signal) acc w = (Return (acc ++ fs), w).
Proof.
  intros H. revert acc. induction H as [|feature fs Hf _ IH]; intros acc; simpl.
  - unfold ret. by rewrite app_nil_r.
  - unfold bind. unfold resolveFeature at 1. rewrite Hf. unfold ret at 1.
    rewrite IH. by rewrite <- app_assoc.
Qed.

Lemma resolveFacet_plain P options signal facet w :
  Forall (fun feature => isMention feature = false) (features facet) ->
  resolveFacet P options signal facet [] w =
  (Return (if hasFeatures facet then [facet] else []), w).
Proof.
  intros H. unfold resolveFacet, bind. rewrite forOf_plain_features by done.
  unfold hasFeatures. simpl app. destruct facet as [idx fs]. simpl.
  by destruct (0 <? length fs).
Qed.

(** X4. Facets none of whose features is a mention with a handle are
    returned as they are and no call is made, except that a facet without
    features is left out. *)
Theorem resolveMentionFacets_passes_others (P : Platform) (options : BlueskyOptions)
    (signal : option AbortSignal) (facets : list Facet) (w : World) :
  Forall (fun facet =>
            Forall (fun feature => isMention feature = false) (features facet))
         facets ->
  resolveMentionFacets P options facets signal w =
  (Return (List.filter hasFeatures facets), w).
Proof.
  intros H. revert w. induction H as [|facet facets Hf _ IH]; intros w; [done|].
  rewrite resolveMentionFacets_cons, resolveFacet_plain, IH by done.
  simpl. by destruct (hasFeatures facet).
Qed.

Lemma resolveMentionFacets_passes_others_witness :
  resolveMentionFacets (mockPlatform []) testOptions
    [ facetOf {| byteStart := 0; byteEnd := 19 |} (linkFeature (js "https://example.com"));
      {| index := {| byteStart := 20; byteEnd := 21 |}; features := [] |};
      facetOf {| byteStart := 22; byteEnd := 23 |}
        {| type_ := MENTION_FACET; did := Some []; uri := None; tag := None |} ]
    None []
  = (Return
       [ facetOf {| byteStart := 0; byteEnd := 19 |} (linkFeature (js "https://example.com"));
         facetOf {| byteStart := 22; byteEnd := 23 |}
           {| type_ := MENTION_FACET; did := Some []; uri := None; tag := None |} ],
     []).
Proof.
  apply (resolveMentionFacets_passes_others (mockPlatform []) testOptions None).
  repeat constructor.
Defined.

Lemma resolveHandle_calls P options handle signal w :
  snd (resolveHandle P options handle signal w) = w ++ [lookupCall options signal handle].
Proof.
  unfold resolveHandle, bind.
  change (fetch P _ w) with (fetch P (lookupCall options signal handle) w).
  pose proof (fetch_calls P (lookupCall options signal handle) w) as Hc.
  destruct (fetch P (lookupCall options signal handle) w) as [[r|e] w']; simpl in *;
    subst w'; [|done].
  unfold readJson. destruct (ok r), (json r); reflexivity.
Qed.

Lemma resolveFeature_calls P options signal feature acc w :
  snd (resolveFeature P options signal feature acc w) =
  w ++ (lookupCall options signal <$> handlesOf [feature]).
Proof.
  unfold resolveFeature. simpl handlesOf.
  destruct (isMention feature); [|simpl; by rewrite app_nil_r].
  pose proof (resolveHandle_calls P options (did feature) signal w) as Hc.
  unfold tryCatch, bind.
  by destruct (resolveHandle P options (did feature) signal w) as [[d|e] w'].
Qed.

Lemma handlesOf_cons feature fs :
  handlesOf (feature :: fs) = handlesOf [feature] ++ handlesOf fs.
Proof. simpl. by destruct (isMention feature). Qed.

Lemma resolveFeatures_calls P options signal fs acc w :
  snd (forOf fs (resolveFeature P options signal) acc w) =
  w ++ (lookupCall options signal <$> handlesOf fs).
Proof.
  revert acc w. induction fs as [|feature fs IH]; intros acc w.
  - simpl. by rewrite app_nil_r.
  - cbn [forOf].
    destruct (Resolves_resolveFeature P options signal feature acc w)
      as (a & calls & E & _).
    pose proof (resolveFeature_calls P options signal feature acc w) as Hc.
    rewrite E in Hc. simpl in Hc.
    rewrite (bind_Return _ _ _ _ _ E), IH, Hc, handlesOf_cons, fmap_app.
    by rewrite <- app_assoc.
Qed.

Lemma resolveFacet_calls P options signal facet acc w :
  snd (resolveFacet P options signal facet acc w) =
  w ++ (lookupCall options signal <$> handlesOf (features facet)).
Proof.
  pose proof (resolveFeatures_calls P options signal (features facet) [] w) as Hc.
  unfold resolveFacet, bind.
  destruct (forOf (features facet) (resolveFeature P options signal) [] w)
    as [[fs|e] w']; simpl in Hc; subst w'; [|done].
  by destruct (0 <? length fs).
Qed.

Lemma resolveFacets_calls P options signal facets acc w :
  snd (forOf facets (resolveFacet P options signal) acc w) =
  w ++ (lookupCall options signal <$> mentionHandles facets).
Proof.
  revert acc w. induction facets as [|facet facets IH]; intros acc w.
  - simpl. by rewrite app_nil_r.
  - cbn [forOf].
    destruct (Resolves_resolveFacet P options signal facet acc w)
      as (a & calls & E & _).
    pose proof (resolveFacet_calls P options signal facet acc w) as Hc.
    rewrite E in Hc. simpl in Hc.
    rewrite (bind_Return _ _ _ _ _ E), IH, Hc.
    unfold mentionHandles. simpl flat_map.
    by rewrite fmap_app, <- app_assoc.
Qed.

(** X5. [resolveMentionFacets] makes one call for each feature that is a
    mention with a handle, in the order of the facets and of their
    features, and no other call: a GET of the [resolveHandle] endpoint with
    the handle as query parameter and the caller's signal. *)
Theorem resolveMentionFacets_lookups (P : Platform) (options : BlueskyOptions)
    (signal : option AbortSignal) (facets : list Facet) (w : World) :
  snd (resolveMentionFacets P options facets signal w) =
  w ++ (lookupCall options signal <$> mentionHandles facets).
Proof. rewrite resolveMentionFacets_unfold. apply resolveFacets_calls. Qed.

(** ** [createSession] and [post] *)

(** X6. When the session cannot be created, [post] rejects with the error
    of [createSession] after that one call: no lookup, upload or record
    creation follows.  For a response that is not [ok] the error is an
    [Error] whose message carries the status, the status text and the
    error code and message of the body. *)
Theorem post_stops_when_session_fails (P : Platform) (self : BlueskyStrategy)
    (message : option jsstring) (postOptions : option PostOptions) (w : World) :
  truthy message = true ->
  validatePostOptions postOptions = Return tt ->
  let call := sessionCall (options self) (signalOf postOptions) in
  (forall e w1,
     createSession P (options self) (signalOf postOptions) w = (Throw e, w1) ->
     post P self message postOptions w = (Throw e, w ++ [call])) /\
  (forall r errorBody,
     aborted (signalOf postOptions) (length w) = false ->
     server P (length w) call = Responds r ->
     ok r = false -> json r = Some errorBody ->
     post P self message postOptions w =
     (Throw (Error (numberToString (status r) ++ js " " ++ statusText r
                    ++ js ": " ++ js "Failed to create session:" ++ [10%N]
                    ++ str (j_error errorBody) ++ js " - "
                    ++ str (j_message errorBody))),
      w ++ [call])).
Proof.
  intros Hm Hv call.
  assert (Hstop : forall e w1,
    createSession P (options self) (signalOf postOptions) w = (Throw e, w1) ->
    post P self message postOptions w = (Throw e, w ++ [call])).
  { intros e w1 E. rewrite post_valid by done.
    pose proof (createSession_calls P (options self) (signalOf postOptions) w) as Hc.
    rewrite E in Hc. simpl in Hc. subst w1. by rewrite (bind_Throw _ _ _ _ _ E). }
  split; [exact Hstop|].
  intros r errorBody Ha Hs Hok Hj.
  apply (Hstop _ (w ++ [call])).
  unfold createSession, bind.
  change (fetch P _ w) with (fetch P call w).
  unfold fetch. fold call. simpl callSignal. rewrite Ha, Hs, Hok.
  unfold readJson. by rewrite Hj.
Qed.

Lemma post_stops_when_session_fails_witness :
  post refusingPlatform testStrategy (Some (js "Hello, world!")) None [] =
  (Throw (Error (js "400 Bad Request: Failed to create session:" ++ [10%N]
                 ++ js "Invalid credentials - The credentials provided are invalid.")),
   [sessionCall testOptions None]).
Proof.
  destruct (post_stops_when_session_fails refusingPlatform testStrategy
              (Some (js "Hello, world!")) None [] eq_refl eq_refl) as [_ H].
  exact (H _ _ eq_refl eq_refl eq_refl eq_refl).
Defined.

(** ** [uploadImage] and [postMessage] *)



Lemma submit_unfold P options session truncated postOptions fs :
  submit P options session truncated postOptions fs =
  (let! createdAt := currentTime P in
   let! images := forOf (imagesOf postOptions)
                    (uploadStep P options session postOptions) [] in
   let! response :=
     fetch P {| url := getPostMessageUrl options; query := [];
                method := js "POST";
                headers := [(js "Content-Type", js "application/json");
                            (js "Authorization",
                             js "Bearer " ++ str (j_accessJwt session))];
                body := RecordBody
                  {| repo := j_did session;
                     collection := js "app.bsky.feed.post";
                     record :=
                       {| recordType := js "app.bsky.feed.post";
                          recordText := truncated;
                          recordFacets := fs;
                          createdAt := createdAt;
                          embed := if 0 <? length images
                                   then Some {| embedType := js "app.bsky.embed.images";
                                                embedImages := images |}
                                   else None |} |};
                callSignal := signalOf postOptions |} in
   if ok response
   then readJson response
   else let! errorBody := readJson response in
        throw (Error (failureMessage response (js "Failed to post message:") errorBody))).
Proof. reflexivity. Qed.



(** ** [bin.js]: the message from the command line *)

Lemma unescapeNewlines_escape r :
  unescapeNewlines (92%N :: 110%N :: r) = 10%N :: unescapeNewlines r.
Proof. reflexivity. Qed.

Lemma unescapeNewlines_other c r :
  matchNewlineEscape (c :: r) = None ->
  unescapeNewlines (c :: r) = c :: unescapeNewlines r.
Proof. intros H. unfold unescapeNewlines, replace. cbn [replaceFrom]. by rewrite H. Qed.

Lemma matchNewlineEscape_cases c r :
  (exists r', c = 92%N /\ r = 110%N :: r') \/ matchNewlineEscape (c :: r) = None.
Proof.
  destruct r as [|d r']; [by right|]. simpl.
  destruct (N.eqb_spec c 92) as [->|]; [|by right].
  destruct (N.eqb_spec d 110) as [->|]; [|by right].
  left. by exists r'.
Qed.

Lemma unescapeNewlines_head s :
  head (unescapeNewlines s) = Some 110%N -> head s = Some 110%N.
Proof.
  destruct s as [|c r]; [done|].
  destruct (matchNewlineEscape_cases c r) as [(r' & -> & ->)|Hn].
  - rewrite unescapeNewlines_escape. discriminate.
  - by rewrite unescapeNewlines_other.
Qed.

Lemma unescapeNewlines_clean s : hasNewlineEscape (unescapeNewlines s) = false.
Proof.
  remember (length s) as n eqn:Hn. revert s Hn.
  induction n as [n IH] using lt_wf_ind. intros [|c r] Hn; [done|].
  destruct (matchNewlineEscape_cases c r) as [(r' & -> & ->)|Hm].
  - rewrite unescapeNewlines_escape.
    assert (hasNewlineEscape (unescapeNewlines r') = false) as Hr.
    { apply (IH (length r')); [subst n; simpl; lia|done]. }
    cbn [hasNewlineEscape]. rewrite Hr. by destruct (unescapeNewlines r').
  - rewrite unescapeNewlines_other by done.
    assert (hasNewlineEscape (unescapeNewlines r) = false) as Hr.
    { apply (IH (length r)); [subst n; simpl; lia|done]. }
    cbn [hasNewlineEscape]. rewrite Hr, orb_false_r.
    pose proof (unescapeNewlines_head r) as Hh.
    destruct (unescapeNewlines r) as [|d u]; [done|].
    destruct (N.eqb_spec c 92) as [->|]; [|done].
    destruct (N.eqb_spec d 110) as [->|]; [|done].
    specialize (Hh eq_refl). destruct r as [|d' r']; [done|].
    simpl in Hh. injection Hh as ->. discriminate Hm.
Qed.

Lemma unescapeNewlines_unchanged s :
  hasNewlineEscape s = false -> unescapeNewlines s = s.
Proof.
  induction s as [|c r IH]; [done|]. cbn [hasNewlineEscape].
  intros H. apply orb_false_iff in H as [Hpair Hr].
  rewrite unescapeNewlines_other; [by rewrite IH|].
  destruct r as [|d r']; [done|]. simpl. by rewrite Hpair.
Qed.

Lemma unescapeNewlines_length s : length (unescapeNewlines s) <= length s.
Proof.
  remember (length s) as n eqn:Hn. revert s Hn.
  induction n as [n IH] using lt_wf_ind. intros [|c r] Hn; [simpl; lia|].
  destruct (matchNewlineEscape_cases c r) as [(r' & -> & ->)|Hm].
  - rewrite unescapeNewlines_escape. cbn [length].
    pose proof (IH (length r') ltac:(subst n; simpl; lia) r' eq_refl).
    subst n. simpl. lia.
  - rewrite unescapeNewlines_other by done. cbn [length].
    pose proof (IH (length r) ltac:(subst n; simpl; lia) r eq_refl).
    subst n. simpl. lia.
Qed.

(** X8. In the message taken from the command line, every backslash
    followed by [n] becomes a line feed: none is left in the result, so
    doing it again changes nothing; a message without such a pair is
    unchanged; and the result is never longer than the argument. *)
Theorem unescapeNewlines_spec (s : jsstring) :
  hasNewlineEscape (unescapeNewlines s) = false /\
  unescapeNewlines (unescapeNewlines s) = unescapeNewlines s /\
  (hasNewlineEscape s = false -> unescapeNewlines s = s) /\
  length (unescapeNewlines s) <= length s.
Proof.
  split; [apply unescapeNewlines_clean|].
  split; [apply unescapeNewlines_unchanged, unescapeNewlines_clean|].
  split; [apply unescapeNewlines_unchanged|apply unescapeNewlines_length].
Qed.

Lemma unescapeNewlines_spec_witness :
  unescapeNewlines (js "one\ntwo\\nthree") = js "one" ++ 10%N :: js "two\" ++ 10%N :: js "three" /\
  unescapeNewlines (js "no escape here") = js "no escape here".
Proof.
  destruct (unescapeNewlines_spec (js "no escape here")) as (_ & _ & H & _).
  split; [reflexivity|]. apply H. reflexivity.
Defined.

(** ** [bin.js]: the alternative text of the image *)

Lemma splitWhere_clean f s :
  Forall (fun c => f c = false) s -> splitWhere f s = [s].
Proof.
  induction 1 as [|c s Hc _ IH]; [done|]. simpl. by rewrite Hc, IH.
Qed.

Lemma last_cons_cons {A} (x : A) l y : last l = Some y -> last (x :: l) = Some y.
Proof. by destruct l. Qed.

Lemma splitWhere_parts f pre sep name :
  f sep = true -> Forall (fun c => f c = false) name ->
  exists part parts,
    splitWhere f (pre ++ sep :: name) = part :: parts /\ last parts = Some name.
Proof.
  intros Hsep Hname.
  induction pre as [|c pre (part & parts & E & Hlast)]; simpl.
  - rewrite Hsep, (splitWhere_clean f name Hname). by exists [], [name].
  - rewrite E. destruct (f c).
    + exists [], (part :: parts). split; [done|]. by apply last_cons_cons.
    + by exists (c :: part), parts.
Qed.

Lemma splitWhere_last f pre sep name :
  f sep = true -> Forall (fun c => f c = false) name ->
  last (splitWhere f (pre ++ sep :: name)) = Some name.
Proof.
  intros Hsep Hname.
  destruct (splitWhere_parts f pre sep name Hsep Hname) as (part & parts & -> & H).
  by apply last_cons_cons.
Qed.

(** X9. The alternative text of the image.  A non-empty [--image-alt] is
    used as it is.  Otherwise: for a path without slash or backslash it is
    the path; for a path with one it is what follows the last of them,
    unless nothing follows, and then it is the whole path.  It is never
    empty for a path that is not empty. *)
Theorem imageAltText_spec (image : jsstring) (imageAlt : option jsstring) :
  (truthy imageAlt = true -> imageAltText image imageAlt = str imageAlt) /\
  (truthy imageAlt = false ->
   (Forall (fun c => isPathSeparator c = false) image ->
    imageAltText image imageAlt = image) /\
   (forall pre sep name,
      image = pre ++ sep :: name ->
      isPathSeparator sep = true ->
      Forall (fun c => isPathSeparator c = false) name ->
      imageAltText image imageAlt =
      match name with [] => image | _ :: _ => name end) /\
   (image <> [] -> imageAltText image imageAlt <> [])).
Proof.
  split.
  - by destruct imageAlt as [[|c a]|].
  - intros Halt.
    assert (imageAltText image imageAlt = imageBasename image) as ->
      by by destruct imageAlt as [[|c a]|].
    unfold imageBasename. split; [|split].
    + intros Hclean. rewrite (splitWhere_clean _ _ Hclean). by destruct image.
    + intros pre sep name -> Hsep Hname.
      rewrite (splitWhere_last _ pre sep name Hsep Hname). by destruct name.
    + intros Hne. by destruct (last (splitWhere isPathSeparator image)) as [[|c name]|].
Qed.

Lemma imageAltText_spec_witness :
  imageAltText (js "photos/2024/cat.png") None = js "cat.png" /\
  imageAltText (js "C:\images\cat.png") (Some []) = js "cat.png" /\
  imageAltText (js "cat.png") None = js "cat.png" /\
  imageAltText (js "photos/") None = js "photos/" /\
  imageAltText (js "photos/2024/cat.png") (Some (js "A cat")) = js "A cat".
Proof.
  destruct (imageAltText_spec (js "photos/2024/cat.png") None) as [_ H1].
  destruct (H1 eq_refl) as (_ & Hlast1 & _).
  split; [apply (Hlast1 (js "photos/2024") 47%N (js "cat.png") eq_refl eq_refl);
          by repeat constructor|].
  destruct (imageAltText_spec (js "C:\images\cat.png") (Some [])) as [_ H2].
  destruct (H2 eq_refl) as (_ & Hlast2 & _).
  split; [apply (Hlast2 (js "C:\images") 92%N (js "cat.png") eq_refl eq_refl);
          by repeat constructor|].
  destruct (imageAltText_spec (js "cat.png") None) as [_ H3].
  destruct (H3 eq_refl) as (Hwhole & _ & _).
  split; [apply Hwhole; by repeat constructor|].
  destruct (imageAltText_spec (js "photos/") None) as [_ H4].
  destruct (H4 eq_refl) as (_ & Hlast4 & _).
  split; [apply (Hlast4 (js "photos") 47%N [] eq_refl eq_refl); constructor|].
  destruct (imageAltText_spec (js "photos/2024/cat.png") (Some (js "A cat")))
    as [Hgiven _].
  exact (Hgiven eq_refl).
Defined.

(** ** [bin.js]: the flags *)

Lemma requested_nonempty flags :
  noPlatform flags = false -> requested flags <> [].
Proof.
  unfold noPlatform, requested.
  destruct (twitter flags), (mastodon flags), (bluesky flags), (linkedin flags),
    (discord flags), (discordWebhook flags), (devto flags), (telegram flags),
    (slack flags), (nostr flags); simpl; done.
Qed.

(** X10. When the script goes on to post (it neither prints the version or
    the usage nor reports [--file] with [--mcp], and [--mcp] is not given),
    at least one strategy is requested, and the message is there: the
    file when [--file] is given, else the first positional, which exists,
    with its newline escapes replaced.  With [--mcp] no file is given. *)
Theorem startup_proceeds_with_message (readFile : jsstring -> Outcome jsstring)
    (flags : Flags) (positionals : list jsstring) :
  startup flags positionals = Proceed ->
  version flags = false /\ help flags = false /\
  (mcp flags = true -> truthy (file flags) = false) /\
  (mcp flags = false ->
   requested flags <> [] /\
   (truthy (file flags) = true /\
    commandLineMessage readFile flags positionals = readFile (str (file flags))
    \/
    truthy (file flags) = false /\
    exists first rest,
      positionals = first :: rest /\
      commandLineMessage readFile flags positionals =
      Return (unescapeNewlines first))).
Proof.
  unfold startup, commandLineMessage.
  destruct (version flags); [discriminate|].
  destruct (mcp flags) eqn:Hmcp; simpl.
  - destruct (truthy (file flags)); [discriminate|].
    destruct (help flags); [discriminate|]. simpl.
    rewrite andb_false_r. by intros _.
  - destruct (help flags); [discriminate|]. simpl.
    rewrite andb_true_r.
    destruct (noPlatform flags) eqn:Hp; [by rewrite orb_true_r|].
    rewrite orb_false_r. intros H.
    split; [done|]. split; [done|]. split; [done|]. intros _.
    split; [by apply requested_nonempty|].
    destruct (truthy (file flags)); [by left|]. right. split; [done|].
    destruct positionals as [|first rest]; [discriminate|]. by exists first, rest.
Qed.

(** The flags of [crosspost -b -m "Hello\nworld"]. *)
Lemma startup_proceeds_with_message_witness :
  let flags :=
    {| twitter := false; mastodon := true; bluesky := true; linkedin := false;
       discord := false; discordWebhook := false; devto := false;
       telegram := false; slack := false; nostr := false; mcp := false;
       file := None; image := None; imageAlt := None;
       help := false; version := false |} in
  requested flags = [Mastodon; Bluesky] /\
  commandLineMessage (fun _ => Throw (Error [])) flags [js "Hello\nworld"] =
  Return (js "Hello" ++ 10%N :: js "world").
Proof.
  intros flags. split; [reflexivity|].
  destruct (startup_proceeds_with_message (fun _ => Throw (Error [])) flags
              [js "Hello\nworld"] eq_refl) as (_ & _ & _ & H).
  destruct (H eq_refl) as [_ [[Hfile _]|(_ & first & rest & Hp & Hm)]].
  - discriminate Hfile.
  - injection Hp as <- <-. exact Hm.
Defined.

Lemma sublist_optional {A} (b : bool) (x : A) l1 l2 :
  l1 `sublist_of` l2 -> ((if b then [x] else []) ++ l1) `sublist_of` (x :: l2).
Proof. intros H. destruct b; simpl; by constructor. Qed.

(** X11. The strategies are built in a fixed order, whatever the order of
    the flags on the command line: the requested strategies are a sublist
    of Twitter, Mastodon, Bluesky, LinkedIn, Discord, Discord webhook,
    Dev.to, Telegram, Slack, Nostr, without repetition, and there is none
    exactly when no platform flag is given. *)
Theorem requested_in_fixed_order (flags : Flags) :
  requested flags `sublist_of` allPlatforms /\
  NoDup (requested flags) /\
  (requested flags = [] <-> noPlatform flags = true).
Proof.
  assert (requested flags `sublist_of` allPlatforms) as Hsub.
  { unfold requested, allPlatforms.
    repeat apply sublist_optional.
    destruct (nostr flags); repeat constructor. }
  split; [done|]. split.
  - assert (NoDup allPlatforms) as Hall.
    { unfold allPlatforms. unfold allPlatforms.
      rewrite !NoDup_cons, !elem_of_cons, !elem_of_nil.
      repeat split; try (intuition discriminate). apply NoDup_nil_2. }
    exact (sublist_NoDup _ _ Hall Hsub).
  - split.
    + intros H. destruct (noPlatform flags) eqn:Hp; [done|].
      by apply requested_nonempty in Hp.
    + unfold noPlatform, requested.
      destruct (twitter flags), (mastodon flags), (bluesky flags), (linkedin flags),
        (discord flags), (discordWebhook flags), (devto flags), (telegram flags),
        (slack flags), (nostr flags); simpl; done.
Qed.

(** ** [bin.js]: the report *)

Lemma reportFrom_returns strategies responses :
  forall index code out,
    index + length responses <= length strategies ->
    exists printed,
      reportFrom strategies index responses code out =
      Return (if forallb isSuccessResponse responses then code else 1,
              out ++ printed) /\
      omap errorOf printed = omap reasonOf responses /\
      length printed = 3 * length responses.
Proof.
  induction responses as [|response rest IH]; intros index code out Hlen.
  - exists []. by rewrite app_nil_r.
  - simpl in Hlen. unfold reportFrom; fold reportFrom. unfold reportLine.
    destruct (lookup_lt_is_Some_2 strategies index) as [strategy ->]; [lia|].
    destruct response as [response url|reason]; simpl isSuccessResponse; cbv iota.
    + destruct (IH (S index) code (out ++ [Log ([9989%N; 32%N] ++ name strategy ++ js " succeeded."); Log url; Log []]))
        as (printed & -> & Herr & Hn); [lia|].
      eexists (_ :: _ :: _ :: printed). rewrite <- app_assoc.
      split; [reflexivity|]. split; [exact Herr|]. simpl. lia.
    + destruct (IH (S index) 1 (out ++ [Log ([10060%N; 32%N] ++ name strategy ++ js " failed."); LogError reason; Log []]))
        as (printed & -> & Herr & Hn); [lia|].
      eexists (_ :: _ :: _ :: printed). rewrite <- app_assoc.
      split; [simpl; by destruct (forallb isSuccessResponse rest)|].
      split; [simpl; f_equal; exact Herr|]. simpl. lia.
Qed.

Lemma reportFrom_throws strategies responses :
  forall index code out,
    index <= length strategies ->
    length strategies < index + length responses ->
    reportFrom strategies index responses code out =
    Throw (TypeError (js "Cannot read properties of undefined (reading 'name')")).
Proof.
  induction responses as [|response rest IH]; intros index code out Hi Hlen.
  - simpl in Hlen. lia.
  - simpl in Hlen. unfold reportFrom; fold reportFrom. unfold reportLine.
    destruct (decide (index < length strategies)) as [Hlt|Hge].
    + destruct (lookup_lt_is_Some_2 strategies index Hlt) as [strategy ->].
      destruct response as [response url|reason]; simpl isSuccessResponse;
        cbv iota; apply IH; lia.
    + rewrite (lookup_ge_None_2 strategies index); [done|lia].
Qed.

(** X12. The report of [bin.js] over the responses.  When there are no
    more responses than strategies, the loop ends; the exit code is 0 when
    every response is a success and 1 otherwise; three entries are written
    for each response; and what goes to standard error is the reasons of
    the failures, in the order of the responses.  When there are more
    responses than strategies, the loop throws a [TypeError] on the name of
    a strategy that is not there. *)
Theorem report_spec (strategies : list Strategy) (responses : list PostResult) :
  (length responses <= length strategies ->
   exists out,
     report strategies responses = Return (exitCode responses, out) /\
     omap errorOf out = omap reasonOf responses /\
     length out = 3 * length responses) /\
  (length strategies < length responses ->
   report strategies responses =
   Throw (TypeError (js "Cannot read properties of undefined (reading 'name')"))).
Proof.
  split.
  - intros Hlen.
    destruct (reportFrom_returns strategies responses 0 0 []) as (out & H & Herr & Hn);
      [simpl; lia|].
    exists out. unfold report, exitCode. by rewrite H.
  - intros Hlen. apply reportFrom_throws; simpl; lia.
Qed.

Lemma report_spec_witness :
  exists out,
    report [blueskyAdapter; failingAdapter]
      [SuccessResponse CREATE_RECORD_RESPONSE (js "https://bsky.app/profile/testuser/post/1");
       FailureResponse (Error (js "Service unavailable"))] =
    Return (1, out) /\
    omap errorOf out = [Error (js "Service unavailable")] /\
    length out = 6.
Proof.
  destruct (report_spec [blueskyAdapter; failingAdapter]
              [SuccessResponse CREATE_RECORD_RESPONSE
                 (js "https://bsky.app/profile/testuser/post/1");
               FailureResponse (Error (js "Service unavailable"))]) as [H _].
  apply H. simpl. lia.
Defined.

(** ** Where the calls of [post] go *)

Lemma Sends_quiet {A} Q (m : M A) : (forall w, snd (m w) = w) -> Sends Q m.
Proof. intros H w. exists []. rewrite app_nil_r. by split. Qed.

Lemma Sends_bind {A B} Q (m : M A) (f : A -> M B) :
  Sends Q m -> (forall a, Sends Q (f a)) -> Sends Q (bind m f).
Proof.
  intros Hm Hf w. destruct (Hm w) as (calls1 & Hw1 & Hq1).
  unfold bind. destruct (m w) as [[a|e] w1]; simpl in Hw1; subst w1.
  - destruct (Hf a (w ++ calls1)) as (calls2 & Hw2 & Hq2).
    exists (calls1 ++ calls2). rewrite app_assoc.
    split; [done|]. apply Forall_app; by split.
  - by exists calls1.
Qed.

Lemma Sends_tryCatch {A} Q (m : M A) (handler : JsError -> M A) :
  Sends Q m -> (forall e, Sends Q (handler e)) -> Sends Q (tryCatch m handler).
Proof.
  intros Hm Hh w. destruct (Hm w) as (calls1 & Hw1 & Hq1).
  unfold tryCatch. destruct (m w) as [[a|e] w1]; simpl in Hw1; subst w1.
  - by exists calls1.
  - destruct (Hh e (w ++ calls1)) as (calls2 & Hw2 & Hq2).
    exists (calls1 ++ calls2). rewrite app_assoc.
    split; [done|]. apply Forall_app; by split.
Qed.

Lemma Sends_forOf {A S} Q (l : list A) (body : A -> S -> M S) s :
  (forall x s, Sends Q (body x s)) -> Sends Q (forOf l body s).
Proof.
  intros Hb. revert s. induction l as [|x l IH]; intros s; simpl.
  - by apply Sends_quiet.
  - apply Sends_bind; auto.
Qed.

Lemma Sends_readJson Q r : Sends Q (readJson r).
Proof. apply Sends_quiet. intros w. unfold readJson. by destruct (json r). Qed.

Lemma Sends_request {A} P Q c (onOk : Response -> M A) what :
  Q c ->
  (forall r, Sends Q (onOk r)) ->
  Sends Q
    (let! response := fetch P c in
     if ok response
     then onOk response
     else let! errorBody := readJson response in
          throw (Error (failureMessage response what errorBody))).
Proof.
  intros Hc Hok. apply Sends_bind.
  - intros w. exists [c]. split; [apply fetch_calls|]. by constructor.
  - intros r. destruct (ok r); [done|].
    apply Sends_bind; [apply Sends_readJson|].
    intros j. by apply Sends_quiet.
Qed.

Lemma Sends_postMessage P options session message postOptions :
  Sends (afterSession options) (postMessage P options session message postOptions).
Proof.
  unfold postMessage. apply Sends_bind.
  - unfold resolveMentionFacets. apply Sends_forOf. intros facet processedFacets.
    apply Sends_bind.
    + apply Sends_forOf. intros feature processedFeatures.
      destruct (isMention feature); [|by apply Sends_quiet].
      apply Sends_tryCatch; [|intros e; by apply Sends_quiet].
      apply Sends_bind; [|intros d; by apply Sends_quiet].
      unfold resolveHandle. apply Sends_request.
      * split; [done|]. apply list_elem_of_here.
      * intros r. apply Sends_bind; [apply Sends_readJson|].
        intros j. by apply Sends_quiet.
    + intros fs. destruct (0 <? length fs); by apply Sends_quiet.
  - intros fs. apply Sends_bind; [by apply Sends_quiet|]. intros createdAt.
    apply Sends_bind.
    + apply Sends_forOf. intros image images.
      apply Sends_bind.
      * unfold uploadImage. apply Sends_request; [|intros r; apply Sends_readJson].
        split; [done|]. apply list_elem_of_further, list_elem_of_here.
      * intros result. apply Sends_bind; [by apply Sends_quiet|].
        intros dimensions. by apply Sends_quiet.
    + intros images. apply Sends_request; [|intros r; apply Sends_readJson].
      split; [done|]. do 2 apply list_elem_of_further. apply list_elem_of_here.
Qed.

(** X13. The password leaves [post] once at most, and first: when [post]
    makes any call, the first one is the creation of the session, and every
    later call goes to the [resolveHandle], [uploadBlob] or [createRecord]
    endpoint of the configured host and does not carry the password.  A
    [post] that makes no call has thrown. *)
Theorem post_sends_password_first (P : Platform) (self : BlueskyStrategy)
    (message : option jsstring) (postOptions : option PostOptions) (w : World) :
  exists calls,
    snd (post P self message postOptions w) = w ++ calls /\
    match calls with
    | [] => exists e, fst (post P self message postOptions w) = Throw e
    | first :: rest =>
        first = sessionCall (options self) (signalOf postOptions) /\
        carriesPassword first = true /\
        Forall (afterSession (options self)) rest
    end.
Proof.
  destruct (truthy message) eqn:Hm.
  - destruct (validatePostOptions postOptions) as [[]|e] eqn:Hv.
    + rewrite post_valid by done.
      pose proof (createSession_calls P (options self) (signalOf postOptions) w) as Hc.
      unfold bind.
      destruct (createSession P (options self) (signalOf postOptions) w)
        as [[session|e] w1]; simpl in Hc; subst w1.
      * destruct (Sends_postMessage P (options self) session (str message)
                    postOptions (w ++ [sessionCall (options self) (signalOf postOptions)]))
          as (rest & -> & Hrest).
        exists (sessionCall (options self) (signalOf postOptions) :: rest).
        rewrite <- app_assoc. by repeat split.
      * exists [sessionCall (options self) (signalOf postOptions)].
        by repeat split.
    + unfold post. rewrite Hm. simpl negb. cbv iota.
      unfold bind at 1 2. unfold lift. rewrite Hv.
      exists []. rewrite app_nil_r. split; [done|]. by exists e.
  - unfold post. rewrite Hm.
    exists []. rewrite app_nil_r. split; [done|]. by eexists.
Qed.

(** ** What a success of [post] means *)

Lemma request_Return P c what w j w' :
  (let! response := fetch P c in
   if ok response
   then readJson response
   else let! errorBody := readJson response in
        throw (Error (failureMessage response what errorBody))) w = (Return j, w') ->
  w' = w ++ [c] /\
  exists r, server P (length w) c = Responds r /\ ok r = true /\ json r = Some j.
Proof.
  unfold bind at 1. unfold fetch. cbv zeta.
  destruct (aborted (callSignal c) (length w)); [intros [=]|].
  destruct (server P (length w) c) as [e|r] eqn:Hs; [intros [=]|].
  destruct (ok r) eqn:Hok.
  - unfold readJson. destruct (json r) as [j'|] eqn:Hj; [|discriminate].
    intros [= <- <-]. split; [done|]. by exists r.
  - unfold bind, readJson. destruct (json r); discriminate.
Qed.

Lemma submit_Return P options session truncated postOptions fs w j w' :
  submit P options session truncated postOptions fs w = (Return j, w') ->
  exists before recordCall r,
    w' = before ++ [recordCall] /\
    url recordCall = getPostMessageUrl options /\
    submittedText recordCall = truncated /\
    server P (length before) recordCall = Responds r /\
    ok r = true /\ json r = Some j.
Proof.
  rewrite submit_unfold. unfold bind at 1. unfold currentTime at 1.
  unfold bind at 1.
  destruct (forOf (imagesOf postOptions) (uploadStep P options session postOptions) [] w)
    as [[images|e] w3]; [|discriminate].
  intros H. apply request_Return in H as (-> & r & Hs & Hok & Hj).
  eexists w3, _, r. split; [reflexivity|]. by repeat split.
Qed.

(** X14. A success of [post] means that the record was created: when
    [post] returns, the message is not empty, the options are valid, the
    last call that was made is the creation of the record with the
    detector's text, the server answered it with an [ok] response, and
    what [post] returns is the body of that response. *)
Theorem post_returns_created_record (P : Platform) (self : BlueskyStrategy)
    (message : option jsstring) (postOptions : option PostOptions)
    (w w' : World) (j : Json) :
  post P self message postOptions w = (Return j, w') ->
  truthy message = true /\
  validatePostOptions postOptions = Return tt /\
  exists before recordCall r,
    w' = before ++ [recordCall] /\
    url recordCall = getPostMessageUrl (options self) /\
    submittedText recordCall = text (detectFacets (str message)) /\
    server P (length before) recordCall = Responds r /\
    ok r = true /\ json r = Some j.
Proof.
  intros H.
  destruct (truthy message) eqn:Hm;
    [|unfold post in H; rewrite Hm in H; discriminate].
  destruct (validatePostOptions postOptions) as [[]|e] eqn:Hv.
  - split; [done|]. split; [done|].
    rewrite post_valid in H by done. unfold bind at 1 in H.
    destruct (createSession P (options self) (signalOf postOptions) w)
      as [[session|e] w1]; [|discriminate].
    rewrite postMessage_unfold in H. unfold bind at 1 in H.
    destruct (resolveMentionFacets P (options self)
                (facets (detectFacets (str message))) (signalOf postOptions) w1)
      as [[fs|e] w2]; [|discriminate].
    by apply submit_Return in H.
  - unfold post in H. rewrite Hm in H. simpl negb in H. cbv iota in H.
    unfold bind at 1 in H. unfold lift in H. rewrite Hv in H. discriminate.
Qed.

Lemma post_returns_created_record_witness :
  exists before recordCall r,
    [sessionCall testOptions None;
     lookupCall testOptions None (Some (js "alice.test"));
     {| url := getPostMessageUrl testOptions; query := [];
        method := js "POST";
        headers := [(js "Content-Type", js "application/json");
                    (js "Authorization",
                     js "Bearer " ++ str (j_accessJwt CREATE_SESSION_RESPONSE))];
        body := RecordBody
          {| repo := j_did CREATE_SESSION_RESPONSE;
             collection := js "app.bsky.feed.post";
             record :=
               {| recordType := js "app.bsky.feed.post";
                  recordText := js "Hi @alice.test";
                  recordFacets :=
                    [ {| index := {| byteStart := 3; byteEnd := 14 |};
                         features := [mentionOf (js "did:plc:alice")] |} ];
                  createdAt := js "2025-01-01T00:00:00.000Z";
                  embed := None |} |};
        callSignal := None |}] = before ++ [recordCall] /\
    url recordCall = getPostMessageUrl testOptions /\
    submittedText recordCall = js "Hi @alice.test" /\
    server (mockPlatform [(js "alice.test", js "did:plc:alice")])
      (length before) recordCall = Responds r /\
    ok r = true /\ json r = Some CREATE_RECORD_RESPONSE.
Proof.
  apply (post_returns_created_record
           (mockPlatform [(js "alice.test", js "did:plc:alice")]) testStrategy
           (Some (js "Hi @alice.test")) None []).
  reflexivity.
Defined.
